(** * PNASSound: the icon generator [tools/make_icon.py]

    A shallow embedding of the script that draws the application icon
    (three concentric rings, a sine wave and the glowing caption "40Hz")
    onto a 1024x1024 RGBA canvas with Pillow, and the properties its
    specification states about it.

    The script is plain Python on top of three libraries: the float
    arithmetic of the interpreter ([math.sin], [math.pi], rounding), the
    file system ([os.path.exists]) and Pillow ([Image], [ImageDraw],
    [ImageFont]).  Each of them is an interface here (a class or a record
    of operations); the script is translated statement by statement on
    top of these interfaces, and what a theorem needs from a library is
    one of its hypotheses. *)

From Stdlib Require Import ZArith List String Bool Reals Lra Lia Sorted.
Import ListNotations.

Local Open Scope Z_scope.

(** ** Python builtins *)

Module Py.

(** [range(start, stop, step)]: the number of items CPython computes
    for the range object, then the items themselves, produced by
    repeated addition of [step].  A zero step is a [ValueError] in
    Python; no range of the script has one, the model gives it no item. *)
Definition range_len (start stop step : Z) : Z :=
  if 0 <? step then
    if start <? stop then (stop - start - 1) / step + 1 else 0
  else if step <? 0 then
    if stop <? start then (start - stop - 1) / (- step) + 1 else 0
  else 0.

Fixpoint range_from (n : nat) (x step : Z) : list Z :=
  match n with
  | O => []
  | S n' => x :: range_from n' (x + step) step
  end.

Definition range (start stop step : Z) : list Z :=
  range_from (Z.to_nat (range_len start stop step)) start step.

(** Python floats.  A float operation is the exact operation on the
    reals followed by rounding to the nearest representable number;
    [math.sin] and [math.pi] are what the C library provides. *)
Class FloatOps : Type := {
  rnd : R -> R;
  math_sin : R -> R;
  math_pi : R
}.

Section Floats.
Context {F : FloatOps}.

(** int -> float conversion, as done for the int operand of a mixed
    operation. *)
Definition of_int (n : Z) : R := rnd (IZR n).
(** [a / b] on two ints: the correctly rounded quotient. *)
Definition int_truediv (a b : Z) : R := rnd (IZR a / IZR b).
(** A float literal of the source text. *)
Definition literal (x : R) : R := rnd x.
Definition fadd (x y : R) : R := rnd (x + y).
Definition fsub (x y : R) : R := rnd (x - y).
Definition fmul (x y : R) : R := rnd (x * y).
Definition fdiv (x y : R) : R := rnd (x / y).
End Floats.

(** What the theorems below ask of the float arithmetic.  IEEE-754
    binary64 with round-to-nearest has all three properties. *)
Definition rnd_monotone (F : FloatOps) : Prop :=
  forall x y : R, (x <= y)%R -> (rnd x <= rnd y)%R.

Definition rnd_exact_on_halves (F : FloatOps) : Prop :=
  forall n : Z, Z.abs n <= 2 ^ 53 -> rnd (IZR n / 2) = (IZR n / 2)%R.

Definition sin_bounded (F : FloatOps) : Prop :=
  forall t : R, (-1 <= math_sin t <= 1)%R.

End Py.

Import Py.

(** ** Exceptions *)

(** The one exception the script can meet before it writes its output:
    [ImageFont.truetype] raises [OSError] on a file it cannot read as a
    font.  A computation that may raise returns [inl] of the exception. *)
Inductive exn : Type :=
| OSError (msg : string).

Definition result (A : Type) : Type := (exn + A)%type.
Definition ok {A : Type} (a : A) : result A := inr a.
Definition raise {A : Type} (e : exn) : result A := inl e.
Definition bind {A B : Type} (m : result A) (k : A -> result B) : result B :=
  match m with
  | inl e => inl e
  | inr a => k a
  end.

Notation "x <- m ;; k" := (bind m (fun x => k))
  (at level 61, m at next level, right associativity).

(** ** The host's file system, as the script consults it *)

Record FileSystem : Type := {
  (** [os.path.exists(path)] *)
  path_exists : string -> bool;
  (** whether FreeType can open the file at [path] as a font *)
  is_font_file : string -> bool
}.

(** ** Pillow *)

Module PIL.

Definition RGB : Type := (Z * Z * Z)%type.
Definition RGBA : Type := (Z * Z * Z * Z)%type.
Definition BBox (A : Type) : Type := (A * A * A * A)%type.

Definition rgb_of (c : RGBA) : RGB := let '(r, g, b, _) := c in (r, g, b).
Definition alpha_of (c : RGBA) : Z := let '(_, _, _, a) := c in a.

(** An [ImageFont] object: a FreeType font opened from a file at a pixel
    size, or the font built into Pillow. *)
Inductive Font : Type :=
| TrueType (path : string) (sz : Z)
| DefaultFont.

(** [ImageFont.truetype(path, size)] *)
Definition truetype (fs : FileSystem) (path : string) (sz : Z) : result Font :=
  if is_font_file fs path then ok (TrueType path sz)
  else raise (OSError "cannot open resource").

(** [ImageFont.load_default()] *)
Definition load_default : Font := DefaultFont.

(** An image of mode "RGBA": its size and its pixels. *)
Record Image : Type := {
  im_size : Z * Z;
  im_px : Z -> Z -> RGBA
}.

(** [Image.new("RGBA", size, color)] with a 3-tuple colour: the alpha
    band is filled with 255. *)
Definition Image_new (sz : Z * Z) (color : RGB) : Image :=
  let '(r, g, b) := color in
  {| im_size := sz; im_px := fun _ _ => (r, g, b, 255) |}.

Definition in_image (im : Image) (x y : Z) : bool :=
  (0 <=? x) && (x <? fst (im_size im)) && (0 <=? y) && (y <? snd (im_size im)).

(** [img.getpixel((x, y))]; outside the image it is an [IndexError]. *)
Definition getpixel (im : Image) (x y : Z) : option RGBA :=
  if in_image im x y then Some (im_px im x y) else None.

(** The rasteriser and the font engine behind [ImageDraw]: which pixels
    a shape covers, the coverage (0..255) a glyph run gives each pixel,
    how a coverage mixes the ink into a pixel, and the bounding box of a
    glyph run drawn at the origin. *)
Class Pillow : Type := {
  font_getbbox : Font -> string -> BBox Z;
  ellipse_fill_cov : BBox R -> Z -> Z -> bool;
  ellipse_outline_cov : BBox R -> Z -> Z -> Z -> bool;
  line_cov : list (R * R) -> Z -> option string -> Z -> Z -> bool;
  text_mask : Font -> string -> R * R -> Z -> Z -> Z;
  blend : Z -> RGBA -> RGBA -> RGBA
}.

(** The calls the script makes on its [ImageDraw.Draw(img)] object. *)
Inductive DrawCall : Type :=
| Ellipse (xy : BBox R) (fill outline : option RGBA) (width : Z)
| Line (xy : list (R * R)) (fill : RGBA) (width : Z) (joint : option string)
| Text (xy : R * R) (text : string) (font : option Font) (fill : RGBA).

Definition is_ellipse (c : DrawCall) : bool :=
  match c with Ellipse _ _ _ _ => true | _ => false end.

Definition is_text (c : DrawCall) : bool :=
  match c with Text _ _ _ _ => true | _ => false end.

Section Draw.
Context {F : FloatOps} {P : Pillow}.

(** The default ink of a draw object (white). *)
Definition default_ink : RGBA := (255, 255, 255, 255).

(** [ImageDraw.getfont]: the built-in font when none is given. *)
Definition getfont (font : option Font) : Font :=
  match font with
  | Some f => f
  | None => load_default
  end.

(** Shapes are drawn on an RGBA image without compositing: every covered
    pixel inside the image takes the ink, all four bands of it. *)
Definition paint (im : Image) (cov : Z -> Z -> bool) (ink : RGBA) : Image :=
  {| im_size := im_size im;
     im_px := fun x y =>
       if in_image im x y && cov x y then ink else im_px im x y |}.

(** A glyph mask is pasted through [blend], band by band. *)
Definition paste_mask (im : Image) (mask : Z -> Z -> Z) (ink : RGBA) : Image :=
  {| im_size := im_size im;
     im_px := fun x y =>
       if in_image im x y then blend (mask x y) (im_px im x y) ink
       else im_px im x y |}.

Definition rgba_eqb (c d : RGBA) : bool :=
  let '(r1, g1, b1, a1) := c in
  let '(r2, g2, b2, a2) := d in
  (r1 =? r2) && (g1 =? g2) && (b1 =? b2) && (a1 =? a2).

(** [draw.ellipse(xy, fill, outline, width)] *)
Definition draw_ellipse (im : Image) (xy : BBox R) (fill outline : option RGBA)
    (width : Z) : Image :=
  let ink :=
    match outline, fill with
    | Some c, _ => Some c
    | None, None => Some default_ink
    | None, Some _ => None
    end in
  let im1 :=
    match fill with
    | Some c => paint im (ellipse_fill_cov xy) c
    | None => im
    end in
  match ink with
  | Some c =>
      let same := match fill with Some d => rgba_eqb c d | None => false end in
      if same || (width =? 0) then im1
      else paint im1 (ellipse_outline_cov xy width) c
  | None => im1
  end.

(** [draw.line(xy, fill, width, joint)] *)
Definition draw_line (im : Image) (xy : list (R * R)) (fill : RGBA) (width : Z)
    (joint : option string) : Image :=
  paint im (line_cov xy width joint) fill.

(** [draw.text(xy, text, fill, font)] *)
Definition draw_text (im : Image) (xy : R * R) (text : string)
    (font : option Font) (fill : RGBA) : Image :=
  paste_mask im (text_mask (getfont font) text xy) fill.

Definition exec (im : Image) (c : DrawCall) : Image :=
  match c with
  | Ellipse xy fill outline width => draw_ellipse im xy fill outline width
  | Line xy fill width joint => draw_line im xy fill width joint
  | Text xy text font fill => draw_text im xy text font fill
  end.

(** The call [c] covers the pixel [(x, y)] with none of its shapes and
    with no glyph: it can only leave the pixel as it is. *)
Definition leaves (c : DrawCall) (x y : Z) : Prop :=
  match c with
  | Ellipse xy fill _ width =>
      (fill = None \/ ellipse_fill_cov xy x y = false) /\
      ellipse_outline_cov xy width x y = false
  | Line xy _ width joint => line_cov xy width joint x y = false
  | Text xy text font _ => text_mask (getfont font) text xy x y = 0
  end.

(** [draw.textbbox(xy, text, font)]: the box of the glyph run at the
    origin, moved by [xy].  The script calls it at the int origin; the
    same method at float coordinates adds in float arithmetic. *)
Definition textbbox (xy : Z * Z) (text : string) (font : option Font) : BBox Z :=
  let '(b0, b1, b2, b3) := font_getbbox (getfont font) text in
  (b0 + fst xy, b1 + snd xy, b2 + fst xy, b3 + snd xy).

Definition textbbox_at (xy : R * R) (text : string) (font : option Font) : BBox R :=
  let '(b0, b1, b2, b3) := font_getbbox (getfont font) text in
  (fadd (of_int b0) (fst xy), fadd (of_int b1) (snd xy),
   fadd (of_int b2) (fst xy), fadd (of_int b3) (snd xy)).

End Draw.

(** What the theorems below ask of the rasteriser: a shape stays within
    its bounding box (up to the rounding of its coordinates to pixels), a
    polyline within the box around its points widened by its width, a
    glyph run within its measured box; a zero coverage leaves a pixel as
    it is and a full coverage replaces it by the ink. *)
Definition ellipse_within_bbox (P : Pillow) : Prop :=
  forall (x0 y0 x1 y1 : R) (w x y : Z),
    ellipse_outline_cov (x0, y0, x1, y1) w x y = true ->
    (x0 - 1 <= IZR x <= x1 + 1 /\ y0 - 1 <= IZR y <= y1 + 1)%R.

(** The stroke of a circle passes through the pixel half a stroke below
    the top of its box. *)
Definition ellipse_covers_top (P : Pillow) : Prop :=
  forall cx cy r w : Z,
    0 < w <= r ->
    ellipse_outline_cov (IZR (cx - r), IZR (cy - r), IZR (cx + r), IZR (cy + r))
      w cx (cy - r + w / 2) = true.

Definition line_within_hull (P : Pillow) : Prop :=
  forall (xy : list (R * R)) (w : Z) (joint : option string) (xlo xhi ylo yhi : R) (x y : Z),
    0 <= w ->
    Forall (fun p => xlo <= fst p <= xhi /\ ylo <= snd p <= yhi)%R xy ->
    line_cov xy w joint x y = true ->
    (xlo - IZR w <= IZR x <= xhi + IZR w /\ ylo - IZR w <= IZR y <= yhi + IZR w)%R.

Definition text_within_bbox (P : Pillow) : Prop :=
  forall (f : Font) (s : string) (px py : R) (x y : Z),
    text_mask f s (px, py) x y <> 0 ->
    let '(b0, b1, b2, b3) := font_getbbox f s in
    (px + IZR b0 - 1 <= IZR x <= px + IZR b2 + 1 /\
     py + IZR b1 - 1 <= IZR y <= py + IZR b3 + 1)%R.

(** A measured box as the fonts of the script give them at their sizes:
    it starts at or below the drawing origin, is at most 500 pixels high,
    and its coordinates are C ints. *)
Definition modest_bbox (b : BBox Z) : Prop :=
  let '(b0, b1, b2, b3) := b in
  0 <= b1 /\ 0 <= b3 - b1 <= 500 /\ Z.abs b0 <= 2 ^ 31 /\ Z.abs b2 <= 2 ^ 31.

(** A measured box that starts at the pen origin, or one pixel left of
    it.  The boxes of Pillow contain the pen origin; a text whose first
    glyph has no negative left bearing (the digit 4 of the fonts of the
    script) has its box start at the origin itself. *)
Definition box_at_pen_origin (b : BBox Z) : Prop :=
  let '(b0, _, b2, _) := b in
  -1 <= b0 <= 0 /\ 0 <= b2 <= 2 ^ 31.

Definition blend_zero (P : Pillow) : Prop :=
  forall dst ink : RGBA, blend 0 dst ink = dst.

Definition blend_full (P : Pillow) : Prop :=
  forall dst ink : RGBA, blend 255 dst ink = ink.

End PIL.

Import PIL.

(** ** The script [tools/make_icon.py] *)

Module MakeIcon.

Section Script.
Context {F : FloatOps} {P : Pillow}.
Variable fs : FileSystem.

Definition size : Z := 1024.
Definition bg : RGB := (15, 20, 35).

(** [img = Image.new("RGBA", (size, size), bg)] *)
Definition img : Image := Image_new (size, size) bg.

(** *** Concentric rings *)

Definition rings : list (Z * Z) := [(380, 40); (330, 60); (280, 80)].

(** The body of the loop over [rings]: the box of the circle of radius
    [i] around the centre, and the call that strokes it. *)
Definition ring_bbox (i : Z) : BBox R :=
  (fsub (int_truediv size 2) (of_int i), fsub (int_truediv size 2) (of_int i),
   fadd (int_truediv size 2) (of_int i), fadd (int_truediv size 2) (of_int i)).

Definition ring_call (ring : Z * Z) : DrawCall :=
  let '(i, alpha) := ring in
  Ellipse (ring_bbox i) None (Some (80, 140, 255, alpha)) 10.

(** *** Sine wave *)

Definition wave_color : RGBA := (120, 200, 255, 255).
Definition amp : Z := 120.

Definition wave_t (x : Z) : R :=
  fmul (fmul (fmul (int_truediv (x - 120) (size - 240)) (of_int 2)) math_pi) (of_int 3).

Definition wave_y (x : Z) : R :=
  fadd (int_truediv size 2) (fmul (math_sin (wave_t x)) (of_int amp)).

Definition pts : list (Z * R) :=
  map (fun x => (x, wave_y x)) (range 120 (size - 120) 4).

Definition wave_call : DrawCall :=
  Line (map (fun p => (IZR (fst p), snd p)) pts) wave_color 16 (Some "curve"%string).

(** *** Text *)

Definition text : string := "40Hz".

Definition font_paths : list string :=
  [ "/System/Library/Fonts/Supplemental/Helvetica.ttf";
    "/System/Library/Fonts/Supplemental/Arial.ttf";
    "/System/Library/Fonts/Supplemental/Verdana.ttf" ]%string.

(** The loop over the candidate paths, leaving the variable [font]:
    [None] when the loop ends without a [break]. *)
Fixpoint probe (paths : list string) : result (option Font) :=
  match paths with
  | [] => ok None
  | path :: rest =>
      if path_exists fs path then
        f <- truetype fs path 180 ;; ok (Some f)
      else probe rest
  end.

(** The variable [font] after [if font is None: font = load_default()]. *)
Definition font : result (option Font) :=
  f <- probe font_paths ;;
  match f with
  | None => ok (Some load_default)
  | Some f' => ok (Some f')
  end.

Section Caption.
Variable fnt : option Font.

Definition bbox : BBox Z := textbbox (0, 0) text fnt.

Definition text_w : Z := let '(b0, _, b2, _) := bbox in b2 - b0.
Definition text_h : Z := let '(_, b1, _, b3) := bbox in b3 - b1.

Definition text_pos : R * R :=
  (int_truediv (size - text_w) 2,
   fsub (fmul (of_int size) (literal (68 / 100))) (int_truediv text_h 2)).

(** Where the middle of the measured box of the text lies, horizontally,
    once the box is placed at [text_pos]. *)
Definition text_centre_x : R :=
  let '(l, _, r, _) := textbbox_at text_pos text fnt in ((l + r) / 2)%R.

(** *** Soft glow behind text, then the text *)

Definition glow_call (r : Z) : DrawCall :=
  Text text_pos text fnt (120, 200, 255, 18 * r).

Definition glow_calls : list DrawCall := map glow_call (range 8 0 (-1)).

Definition caption_call : DrawCall :=
  Text text_pos text fnt (235, 245, 255, 255).

(** Every call on [draw], in the order the script makes them. *)
Definition draw_calls : list DrawCall :=
  map ring_call rings ++ [wave_call] ++ glow_calls ++ [caption_call].

(** The image the script has when it reaches [img.save]. *)
Definition compose : Image := fold_left exec draw_calls img.

(** The image after the glow loop, before the final text. *)
Definition compose_glow : Image :=
  fold_left exec (map ring_call rings ++ [wave_call] ++ glow_calls) img.

End Caption.

Definition out_path : string := "/Users/user/Projects/PNASSound/Assets/AppIcon-1024.png".

(** The script up to [img.save(out_path)]: the raster it hands to the
    writer, or the exception that ended it. *)
Definition render : result Image :=
  f <- font ;; ok (compose f).

End Script.

End MakeIcon.

Import MakeIcon.

(** ** Reference instances of the interfaces

    An exact float arithmetic (no rounding error, the sine of the reals),
    an idealised rasteriser (geometric coverage, block glyphs), and a few
    hosts.  They show that what the theorems assume of the libraries can
    be met, and give the concrete runs of the script. *)

Module Ideal.

#[export] Instance exact_floats : FloatOps :=
  {| rnd := fun x => x; math_sin := sin; math_pi := PI |}.

Definition Rleb (a b : R) : bool := if Rle_dec a b then true else false.
Definition Rltb (a b : R) : bool := if Rlt_dec a b then true else false.

Definition in_box (b : BBox R) (x y : Z) : bool :=
  let '(x0, y0, x1, y1) := b in
  Rleb x0 (IZR x) && Rleb (IZR x) x1 && Rleb y0 (IZR y) && Rleb (IZR y) y1.

(** The point [(x, y)] is inside the ellipse inscribed in the box. *)
Definition in_ellipse (b : BBox R) (x y : Z) : bool :=
  let '(x0, y0, x1, y1) := b in
  let dx := (2 * IZR x - x0 - x1)%R in
  let dy := (2 * IZR y - y0 - y1)%R in
  let w := (x1 - x0)%R in
  let h := (y1 - y0)%R in
  in_box b x y && Rleb (dx * dx * (h * h) + dy * dy * (w * w)) (w * w * (h * h)).

Definition shrink (b : BBox R) (w : Z) : BBox R :=
  let '(x0, y0, x1, y1) := b in
  (x0 + IZR w, y0 + IZR w, x1 - IZR w, y1 - IZR w)%R.

(** The stroke of width [w] runs inwards from the ellipse of the box. *)
Definition outline (b : BBox R) (w x y : Z) : bool :=
  in_ellipse b x y && negb (in_ellipse (shrink b w) x y).

(** A polyline covers the boxes around its segments, widened by half the
    stroke width. *)
Definition near_segment (p q : R * R) (w x y : Z) : bool :=
  let h := (IZR (Z.max 0 w) / 2)%R in
  Rleb (Rmin (fst p) (fst q) - h) (IZR x) && Rleb (IZR x) (Rmax (fst p) (fst q) + h) &&
  Rleb (Rmin (snd p) (snd q) - h) (IZR y) && Rleb (IZR y) (Rmax (snd p) (snd q) + h).

Fixpoint polyline (xy : list (R * R)) (w x y : Z) : bool :=
  match xy with
  | p :: (q :: _) as rest => near_segment p q w x y || polyline rest w x y
  | _ => false
  end.

(** The measured box of a text.  A FreeType font at 180 pixels measures
    "40Hz" as Arial does, (0, 37, 419, 169), and other sizes and lengths
    in proportion; the built-in bitmap font has cells of 6 x 11 pixels.
    The box starts at the pen origin, as the boxes of Pillow do for a
    text whose first glyph does not reach left of it. *)
Definition metrics (f : Font) (s : string) : BBox Z :=
  match f with
  | TrueType _ sz =>
      (0, sz * 37 / 180, Z.of_nat (String.length s) * sz * 419 / 720, sz * 169 / 180)
  | DefaultFont => (0, 0, Z.of_nat (String.length s) * 6, 11)
  end.

(** The pixel lies in the box placed at [xy], [d] pixels or more from
    its edges. *)
Definition in_placed (xy : R * R) (b : BBox Z) (d : R) (x y : Z) : bool :=
  let '(b0, b1, b2, b3) := b in
  Rleb (fst xy + IZR b0 + d) (IZR x) && Rltb (IZR x) (fst xy + IZR b2 - d) &&
  Rleb (snd xy + IZR b1 + d) (IZR y) && Rltb (IZR y) (snd xy + IZR b3 - d).

(** FreeType fonts are rendered with grey edges, the bitmap font is not. *)
Definition antialiased (f : Font) : bool :=
  match f with
  | TrueType _ _ => true
  | DefaultFont => false
  end.

(** Block glyphs: the measured box is inked, in full inside; an
    antialiased font covers the pixels along the edge of the box in part
    (a quarter). *)
Definition block_mask (f : Font) (s : string) (xy : R * R) (x y : Z) : Z :=
  if in_placed xy (metrics f s) 0 x y then
    if antialiased f && negb (in_placed xy (metrics f s) 1 x y) then 64 else 255
  else 0.

(** Pillow's [BLEND] of one band through a coverage, with its [DIV255]. *)
Definition div255 (a : Z) : Z :=
  let tmp := a + 128 in Z.shiftr (Z.shiftr tmp 8 + tmp) 8.

Definition blend_band (mask in1 in2 : Z) : Z :=
  div255 (in1 * (255 - mask) + in2 * mask).

Definition blend_bands (mask : Z) (dst ink : RGBA) : RGBA :=
  let '(r1, g1, b1, a1) := dst in
  let '(r2, g2, b2, a2) := ink in
  (blend_band mask r1 r2, blend_band mask g1 g2,
   blend_band mask b1 b2, blend_band mask a1 a2).

(** Bands are bytes: anything else is clipped on the way in. *)
Definition clip8 (c : RGBA) : RGBA :=
  let k := fun v => Z.max 0 (Z.min 255 v) in
  let '(r, g, b, a) := c in (k r, k g, k b, k a).

Definition blend8 (mask : Z) (dst ink : RGBA) : RGBA :=
  if mask =? 0 then dst
  else if mask =? 255 then ink
  else blend_bands mask (clip8 dst) (clip8 ink).

#[export] Instance ideal_pillow : Pillow :=
  {| font_getbbox := metrics;
     ellipse_fill_cov := in_ellipse;
     ellipse_outline_cov := outline;
     line_cov := fun xy w _ => polyline xy w;
     text_mask := block_mask;
     blend := blend8 |}.

(** Hosts: one without any of the candidate fonts, one with Arial and
    Verdana installed, one like it with an unrelated extra file, and one
    whose Helvetica file is not a font. *)
Definition no_fonts : FileSystem :=
  {| path_exists := fun _ => false; is_font_file := fun _ => false |}.

Definition arial : string := "/System/Library/Fonts/Supplemental/Arial.ttf".
Definition verdana : string := "/System/Library/Fonts/Supplemental/Verdana.ttf".
Definition helvetica : string := "/System/Library/Fonts/Supplemental/Helvetica.ttf".

Definition mac_host : FileSystem :=
  {| path_exists := fun p => String.eqb p arial || String.eqb p verdana;
     is_font_file := fun p => String.eqb p arial || String.eqb p verdana |}.

Definition mac_host' : FileSystem :=
  {| path_exists := fun p =>
       String.eqb p arial || String.eqb p verdana || String.eqb p "/tmp/notes.txt";
     is_font_file := fun p => String.eqb p arial || String.eqb p verdana |}.

Definition broken_host : FileSystem :=
  {| path_exists := fun p => String.eqb p helvetica;
     is_font_file := fun _ => false |}.

End Ideal.

Import Ideal.

(** ** The layers, read top down

    What the sequence of calls should amount to at one pixel, written
    without the sequence: the topmost layer that covers the pixel decides
    it.  The caption is above the wave, the wave above the rings, a
    smaller ring above a larger one, and the background is below all.
    These are not definitions of the script; the script is compared with
    them below. *)

Module Layers.

Section Layers.
Context {F : FloatOps} {P : Pillow}.
Variable fnt : option Font.

Definition background : RGBA := (15, 20, 35, 255).
Definition ring_color (a : Z) : RGBA := (80, 140, 255, a).
Definition caption_color : RGBA := (235, 245, 255, 255).

(** The coverage the glyphs of the text give a pixel. *)
Definition glyph_cov (x y : Z) : Z :=
  text_mask (getfont fnt) text (text_pos fnt) x y.

Definition on_wave (x y : Z) : bool :=
  line_cov (map (fun p : Z * R => (IZR (fst p), snd p)) pts) 16
    (Some "curve"%string) x y.

Definition on_ring (i x y : Z) : bool :=
  ellipse_outline_cov (ring_bbox i) 10 x y.

(** The rings and the wave, topmost first. *)
Definition shapes_at (x y : Z) : RGBA :=
  if on_wave x y then wave_color
  else if on_ring 280 x y then ring_color 80
  else if on_ring 330 x y then ring_color 60
  else if on_ring 380 x y then ring_color 40
  else background.

(** All layers, for a pixel the glyphs cover in full or not at all. *)
Definition layers_at (x y : Z) : RGBA :=
  if glyph_cov x y =? 255 then caption_color else shapes_at x y.

(** The colours a pixel away from the edges of the glyphs can have. *)
Definition palette : list RGBA :=
  [background; ring_color 40; ring_color 60; ring_color 80; wave_color; caption_color].

(** The square of the distance of a wave point from the centre of the
    canvas, around which the rings are drawn. *)
Definition centre_dist2 (p : Z * R) : R :=
  ((IZR (fst p) - 512) * (IZR (fst p) - 512) + (snd p - 512) * (snd p - 512))%R.

(** The script without its glow loop. *)
Definition draw_calls_without_glow : list DrawCall :=
  map ring_call rings ++ [wave_call] ++ [caption_call fnt].

Definition compose_without_glow : Image :=
  fold_left exec draw_calls_without_glow img.

End Layers.

End Layers.

Import Layers.

(** ** The alpha band under the text

    Pillow mixes the ink of a text into the alpha band of an RGBA image
    with the same [BLEND] as into the colour bands.  The text calls of
    the script all go through the same glyphs, so a pixel of coverage
    [m] has its alpha blended nine times, once per ink. *)

Module Bands.

Definition is_byte (v : Z) : Prop := 0 <= v <= 255.

(** What is asked of [blend] on the alpha band. *)
Definition blend_alpha_is_BLEND (P : Pillow) : Prop :=
  forall (m : Z) (dst ink : RGBA),
    is_byte m -> is_byte (alpha_of dst) -> is_byte (alpha_of ink) ->
    alpha_of (blend m dst ink) = blend_band m (alpha_of dst) (alpha_of ink).

(** The inks of the text calls, in the order of the script. *)
Definition text_inks : list RGBA :=
  map (fun r => (120, 200, 255, 18 * r)) (range 8 0 (-1)) ++ [(235, 245, 255, 255)].

Definition blend_alphas (m : Z) (inks : list RGBA) (a : Z) : Z :=
  fold_left (fun acc ink => blend_band m acc (alpha_of ink)) inks a.

(** The alpha of a pixel of coverage [m] after all text calls, from the
    alpha [a] it has under the text. *)
Definition alpha_after_text (m a : Z) : Z := blend_alphas m text_inks a.

End Bands.

Import Bands.

(** * Properties *)

(** ** [range] *)

Lemma range_from_length (n : nat) (x step : Z) :
  List.length (range_from n x step) = n.
Proof.
  revert x; induction n as [|n IH]; intros x; simpl; [reflexivity|].
  now rewrite IH.
Qed.

Lemma range_from_nth (n : nat) (x step : Z) (k : nat) :
  (k < n)%nat -> nth_error (range_from n x step) k = Some (x + Z.of_nat k * step).
Proof.
  revert x k; induction n as [|n IH]; intros x k Hk; [lia|].
  destruct k as [|k]; cbn [nth_error range_from].
  - f_equal; lia.
  - rewrite IH by lia. f_equal; lia.
Qed.

Lemma range_from_seq (n : nat) (x step : Z) :
  range_from n x step = map (fun k => x + Z.of_nat k * step) (seq 0 n).
Proof.
  revert x; induction n as [|n IH]; intros x; [reflexivity|].
  cbn [range_from seq map]. f_equal; [lia|].
  rewrite IH, <- seq_shift, map_map.
  apply map_ext; intros k; lia.
Qed.

Lemma range_from_lower (n : nat) (x step : Z) :
  0 < step -> Forall (fun v => x <= v) (range_from n x step).
Proof.
  intros Hs; revert x; induction n as [|n IH]; intros x; simpl; constructor; [lia|].
  eapply Forall_impl; [|apply IH]. intros v Hv; simpl in Hv; lia.
Qed.

Lemma range_from_upper (n : nat) (x step : Z) :
  step < 0 -> Forall (fun v => v <= x) (range_from n x step).
Proof.
  intros Hs; revert x; induction n as [|n IH]; intros x; simpl; constructor; [lia|].
  eapply Forall_impl; [|apply IH]. intros v Hv; simpl in Hv; lia.
Qed.

(** An ascending range is strictly increasing, a descending one strictly
    decreasing. *)
Lemma range_from_increasing (n : nat) (x step : Z) :
  0 < step -> StronglySorted Z.lt (range_from n x step).
Proof.
  intros Hs; revert x; induction n as [|n IH]; intros x; simpl; constructor.
  - apply IH.
  - eapply Forall_impl; [|apply (range_from_lower n (x + step) step Hs)].
    intros v Hv; simpl in Hv; lia.
Qed.

Lemma range_from_decreasing (n : nat) (x step : Z) :
  step < 0 -> StronglySorted Z.gt (range_from n x step).
Proof.
  intros Hs; revert x; induction n as [|n IH]; intros x; simpl; constructor.
  - apply IH.
  - eapply Forall_impl; [|apply (range_from_upper n (x + step) step Hs)].
    intros v Hv; simpl in Hv; lia.
Qed.

(** The items of an ascending range are those of [start, stop). *)
Lemma range_bounds (start stop step : Z) :
  0 < step -> Forall (fun v => start <= v < stop) (range start stop step).
Proof.
  intros Hs. unfold range, range_len.
  apply Z.ltb_lt in Hs as Hb; rewrite Hb.
  destruct (Z.ltb_spec start stop) as [Hlt|Hge]; [|constructor].
  apply Forall_forall; intros v Hv.
  apply In_nth_error in Hv as [k Hk].
  assert (Hlen : (k < Z.to_nat ((stop - start - 1) / step + 1))%nat).
  { assert (Hn : nth_error (range_from (Z.to_nat ((stop - start - 1) / step + 1)) start step) k
                 <> None) by congruence.
    apply nth_error_Some in Hn. now rewrite range_from_length in Hn. }
  rewrite range_from_nth in Hk by exact Hlen.
  injection Hk as <-.
  assert (Hq : 0 <= (stop - start - 1) / step) by (apply Z.div_pos; lia).
  assert (Hk' : Z.of_nat k <= (stop - start - 1) / step) by lia.
  assert (Hm : step * ((stop - start - 1) / step) <= stop - start - 1)
    by (apply Z.mul_div_le; lia).
  nia.
Qed.

(** ** Float arithmetic *)

Section FloatFacts.
Context {F : FloatOps}.
Hypothesis Hmono : rnd_monotone F.
Hypothesis Hexact : rnd_exact_on_halves F.

(** Small integers are floats. *)
Lemma rnd_int (n : Z) : Z.abs n <= 2 ^ 52 -> rnd (IZR n) = IZR n.
Proof.
  intros Hn.
  replace (IZR n) with (IZR (2 * n) / 2)%R by (rewrite mult_IZR; lra).
  apply Hexact. change (2 ^ 53) with (2 * 2 ^ 52). lia.
Qed.

Lemma of_int_exact (n : Z) : Z.abs n <= 2 ^ 52 -> of_int n = IZR n.
Proof. apply rnd_int. Qed.

Lemma int_halved_exact (n : Z) :
  Z.abs n <= 2 ^ 53 -> int_truediv n 2 = (IZR n / 2)%R.
Proof. intros Hn. unfold int_truediv. now apply Hexact. Qed.

(** Rounding does not leave an interval whose ends are floats. *)
Lemma rnd_between (a b : Z) (x : R) :
  Z.abs a <= 2 ^ 52 -> Z.abs b <= 2 ^ 52 ->
  (IZR a <= x <= IZR b)%R -> (IZR a <= rnd x <= IZR b)%R.
Proof.
  intros Ha Hb [Hl Hu]. split.
  - rewrite <- (rnd_int a Ha). now apply Hmono.
  - rewrite <- (rnd_int b Hb). now apply Hmono.
Qed.

Lemma half_size : int_truediv size 2 = 512%R.
Proof.
  rewrite int_halved_exact by (vm_compute; discriminate).
  unfold size. lra.
Qed.

Lemma ring_bbox_exact (i : Z) :
  0 <= i <= 512 ->
  ring_bbox i = (IZR (512 - i), IZR (512 - i), IZR (512 + i), IZR (512 + i)).
Proof.
  intros Hi. unfold ring_bbox, fsub, fadd.
  rewrite half_size, of_int_exact by (change (2 ^ 52) with 4503599627370496; lia).
  replace (512 - IZR i)%R with (IZR (512 - i)) by (rewrite minus_IZR; lra).
  replace (512 + IZR i)%R with (IZR (512 + i)) by (rewrite plus_IZR; lra).
  rewrite !rnd_int by (change (2 ^ 52) with 4503599627370496; lia).
  reflexivity.
Qed.

Hypothesis Hsin : sin_bounded F.

Lemma wave_y_bounds (x : Z) : (392 <= wave_y x <= 632)%R.
Proof.
  unfold wave_y, fadd, fmul. rewrite half_size.
  rewrite of_int_exact by (vm_compute; discriminate).
  set (s := math_sin (wave_t x)).
  assert (Hs : (-1 <= s <= 1)%R) by apply Hsin.
  assert (Hp : (IZR (-120) <= rnd (s * IZR amp) <= IZR 120)%R).
  { apply rnd_between; try (vm_compute; discriminate). unfold amp. lra. }
  change 392%R with (IZR 392). change 632%R with (IZR 632).
  apply rnd_between; try (vm_compute; discriminate). lra.
Qed.

End FloatFacts.

(** ** The wave *)

Lemma pts_xs {F : FloatOps} : map fst pts = range 120 (size - 120) 4.
Proof.
  unfold pts. rewrite map_map. cbn [fst]. apply map_id.
Qed.

(** C2. Every sampled point of the wave has its y within the amplitude
    around the centre line: between 512 - 120 = 392 and 512 + 120 = 632,
    whatever its x, in any float arithmetic that rounds monotonically,
    holds the small half-integers exactly and keeps the sine in [-1, 1]. *)
Theorem wave_within_amplitude (F : FloatOps) :
  rnd_monotone F -> rnd_exact_on_halves F -> sin_bounded F ->
  Forall (fun p => IZR (size / 2 - amp) <= snd p <= IZR (size / 2 + amp) /\
                   392 <= snd p <= 632)%R pts.
Proof.
  intros Hmono Hexact Hsin. unfold pts.
  apply Forall_map, Forall_forall. intros x _. cbn [snd].
  pose proof (wave_y_bounds Hmono Hexact Hsin x) as Hy.
  change (size / 2 - amp) with 392. change (size / 2 + amp) with 632.
  lra.
Qed.

Lemma wave_within_amplitude_exact :
  Forall (fun p => IZR (size / 2 - amp) <= snd p <= IZR (size / 2 + amp) /\
                   392 <= snd p <= 632)%R (@pts exact_floats).
Proof.
  apply (wave_within_amplitude exact_floats).
  - intros x y Hxy. exact Hxy.
  - intros n _. reflexivity.
  - intros t. apply SIN_bound.
Defined.

(** C3. The x coordinates of the wave points are 120, 124, ..., 900:
    strictly increasing, starting at 120 with stride 4, and as many as
    the span divided by the stride, (1024 - 240) / 4 = 196. *)
Theorem wave_xs_increasing_and_counted (F : FloatOps) :
  StronglySorted Z.lt (map fst pts) /\
  Z.of_nat (List.length pts) = (size - 240) / 4 /\
  List.length pts = 196%nat /\
  map fst pts = map (fun k => 120 + 4 * Z.of_nat k) (seq 0 196).
Proof.
  split; [|split; [|split]].
  - rewrite pts_xs. apply range_from_increasing. lia.
  - rewrite <- (length_map fst pts), pts_xs. reflexivity.
  - rewrite <- (length_map fst pts), pts_xs. reflexivity.
  - rewrite pts_xs. unfold range.
    change (Z.to_nat (range_len 120 (size - 120) 4)) with 196%nat.
    rewrite range_from_seq. apply map_ext. intros k; lia.
Qed.

(** ** The rings *)

(** C4. The script's ellipse calls are its first three calls, one per
    ring, outermost first: circles around the centre (512, 512) of radius
    380, 330, 280 (strictly decreasing), stroked with alpha 40, 60, 80
    (strictly increasing) in the hue (80, 140, 255), 10 pixels wide, and
    never filled. *)
Theorem rings_outer_to_inner (F : FloatOps) (P : Pillow) (f : option Font) :
  rnd_exact_on_halves F ->
  firstn 3 (draw_calls f) = map ring_call rings /\
  filter is_ellipse (draw_calls f) = map ring_call rings /\
  Forall2 (fun ring c =>
             let '(i, a) := ring in
             c = Ellipse (IZR (512 - i), IZR (512 - i), IZR (512 + i), IZR (512 + i))
                   None (Some (80, 140, 255, a)) 10)
          rings (map ring_call rings) /\
  map fst rings = [380; 330; 280] /\ StronglySorted Z.gt (map fst rings) /\
  map snd rings = [40; 60; 80] /\ StronglySorted Z.lt (map snd rings).
Proof.
  intros Hexact.
  assert (Hnotxt : filter is_ellipse (glow_calls f) = []).
  { unfold glow_calls. induction (range 8 0 (-1)) as [|r l IH]; [reflexivity|exact IH]. }
  split; [reflexivity|].
  split; [unfold draw_calls; rewrite !filter_app, Hnotxt; reflexivity|].
  split.
  { unfold rings. cbn [map ring_call].
    rewrite !(ring_bbox_exact Hexact) by lia.
    repeat constructor. }
  split; [reflexivity|].
  split; [repeat constructor; lia|].
  split; [reflexivity|].
  repeat constructor; lia.
Qed.

Lemma rings_outer_to_inner_exact :
  firstn 3 (@draw_calls exact_floats ideal_pillow None) = map ring_call rings /\
  filter is_ellipse (@draw_calls exact_floats ideal_pillow None) = map ring_call rings /\
  Forall2 (fun ring c =>
             let '(i, a) := ring in
             c = Ellipse (IZR (512 - i), IZR (512 - i), IZR (512 + i), IZR (512 + i))
                   None (Some (80, 140, 255, a)) 10)
          rings (map ring_call rings) /\
  map fst rings = [380; 330; 280] /\ StronglySorted Z.gt (map fst rings) /\
  map snd rings = [40; 60; 80] /\ StronglySorted Z.lt (map snd rings).
Proof.
  apply (rings_outer_to_inner exact_floats ideal_pillow None).
  intros n _. reflexivity.
Defined.

(** ** The glow and the caption *)

(** C5. The glow is eight text calls, all at [text_pos], all with the
    colour (120, 200, 255), their alpha 18 * r for r = 8, ..., 1, that is
    144, 126, ..., 18: strictly decreasing from one call to the next.
    The call that follows them, the last of the script, draws the same
    text in the same font at the same position with alpha 255; the script
    makes no other text call. *)
Theorem glow_then_caption (F : FloatOps) (P : Pillow) (f : option Font) :
  let alphas := map (fun r => 18 * r) (range 8 0 (-1)) in
  glow_calls f = map (fun a => Text (text_pos f) text f (120, 200, 255, a)) alphas /\
  List.length (glow_calls f) = 8%nat /\
  alphas = [144; 126; 108; 90; 72; 54; 36; 18] /\
  StronglySorted Z.gt alphas /\
  draw_calls f =
    map ring_call rings ++ [wave_call] ++ glow_calls f ++
    [Text (text_pos f) text f (235, 245, 255, 255)] /\
  filter is_text (draw_calls f) =
    glow_calls f ++ [Text (text_pos f) text f (235, 245, 255, 255)].
Proof.
  cbv zeta.
  split; [unfold glow_calls, glow_call; now rewrite map_map|].
  split; [unfold glow_calls; now rewrite length_map|].
  split; [reflexivity|].
  split.
  { change (map (fun r => 18 * r) (range 8 0 (-1)))
      with [144; 126; 108; 90; 72; 54; 36; 18].
    repeat constructor. }
  split; [reflexivity|].
  unfold draw_calls. rewrite !filter_app.
  assert (Hall : filter is_text (glow_calls f) = glow_calls f).
  { unfold glow_calls. induction (range 8 0 (-1)) as [|r l IH]; [reflexivity|].
    cbn [map filter glow_call is_text]. now rewrite IH. }
  rewrite Hall. reflexivity.
Qed.

(** ** Font resolution *)

Lemma probe_none (fs : FileSystem) (paths : list string) :
  Forall (fun q => path_exists fs q = false) paths -> probe fs paths = ok None.
Proof.
  induction 1 as [|q l Hq _ IH]; [reflexivity|].
  cbn [probe]. now rewrite Hq.
Qed.

Lemma probe_first (fs : FileSystem) (pre post : list string) (p : string) :
  Forall (fun q => path_exists fs q = false) pre ->
  path_exists fs p = true ->
  probe fs (pre ++ p :: post) = (f <- truetype fs p 180 ;; ok (Some f)).
Proof.
  intros Hpre Hp. induction Hpre as [|q l Hq _ IH]; cbn [probe app].
  - now rewrite Hp.
  - now rewrite Hq.
Qed.

(** However the probes answer, the loop ends in one of two ways. *)
Lemma probe_cases (fs : FileSystem) (paths : list string) :
  Forall (fun q => path_exists fs q = false) paths \/
  exists pre p post, paths = pre ++ p :: post /\
    Forall (fun q => path_exists fs q = false) pre /\ path_exists fs p = true.
Proof.
  induction paths as [|q l IH]; [left; constructor|].
  destruct (path_exists fs q) eqn:Hq.
  - right. exists [], q, l. repeat split; [constructor|exact Hq].
  - destruct IH as [Hall|(pre & p & post & -> & Hpre & Hp)].
    + left. now constructor.
    + right. exists (q :: pre), p, post. repeat split; [now constructor|exact Hp].
Qed.

(** C6 (as amended). The candidate paths are probed in their order and
    the first that exists is opened with [ImageFont.truetype] at size 180
    (no later one is looked at); when the file is a font, that font is
    the result.  If none of them exists, resolution raises nothing and
    the font is the built-in default.  Whenever resolution returns, the
    font is not [None].  Resolution raises in one case only: the first
    candidate that exists is not a font file; the script does not fall
    back to the default font then. *)
Theorem font_resolution (fs : FileSystem) :
  (forall pre p post,
      font_paths = pre ++ p :: post ->
      Forall (fun q => path_exists fs q = false) pre ->
      path_exists fs p = true ->
      font fs = (f <- truetype fs p 180 ;; ok (Some f)) /\
      (is_font_file fs p = true -> font fs = ok (Some (TrueType p 180)))) /\
  (Forall (fun q => path_exists fs q = false) font_paths ->
   font fs = ok (Some load_default)) /\
  (forall v, font fs = ok v -> v <> None) /\
  (font fs = ok (Some load_default) \/
   exists p, In p font_paths /\ path_exists fs p = true /\
             font fs = (f <- truetype fs p 180 ;; ok (Some f))) /\
  (forall e, font fs = raise e ->
     exists pre p post,
       font_paths = pre ++ p :: post /\
       Forall (fun q => path_exists fs q = false) pre /\
       path_exists fs p = true /\ is_font_file fs p = false).
Proof.
  assert (Hfirst : forall pre p post,
      font_paths = pre ++ p :: post ->
      Forall (fun q => path_exists fs q = false) pre ->
      path_exists fs p = true ->
      font fs = (f <- truetype fs p 180 ;; ok (Some f))).
  { intros pre p post Heq Hpre Hp. unfold font.
    rewrite Heq, (probe_first fs pre post p Hpre Hp).
    unfold truetype. destruct (is_font_file fs p); reflexivity. }
  assert (Hnone : Forall (fun q => path_exists fs q = false) font_paths ->
                  font fs = ok (Some load_default)).
  { intros Hall. unfold font. now rewrite (probe_none fs font_paths Hall). }
  split; [|split; [exact Hnone|split; [|split]]].
  - intros pre p post Heq Hpre Hp. split; [now apply (Hfirst pre p post)|].
    intros Hf. rewrite (Hfirst pre p post Heq Hpre Hp).
    unfold truetype. now rewrite Hf.
  - intros v Hv.
    destruct (probe_cases fs font_paths) as [Hall|(pre & p & post & Heq & Hpre & Hp)].
    + rewrite (Hnone Hall) in Hv. injection Hv as <-. discriminate.
    + rewrite (Hfirst pre p post Heq Hpre Hp) in Hv. unfold truetype in Hv.
      destruct (is_font_file fs p); [|discriminate].
      injection Hv as <-. discriminate.
  - destruct (probe_cases fs font_paths) as [Hall|(pre & p & post & Heq & Hpre & Hp)].
    + left. now apply Hnone.
    + right. exists p. split; [rewrite Heq; apply in_elt|].
      split; [exact Hp|now apply (Hfirst pre p post)].
  - intros e He.
    destruct (probe_cases fs font_paths) as [Hall|(pre & p & post & Heq & Hpre & Hp)].
    + rewrite (Hnone Hall) in He. discriminate.
    + exists pre, p, post. repeat split; try assumption.
      rewrite (Hfirst pre p post Heq Hpre Hp) in He. unfold truetype in He.
      destruct (is_font_file fs p); [discriminate|reflexivity].
Qed.

(** Concrete runs: no candidate present, and Arial the first one
    present. *)
Example font_on_no_fonts : font no_fonts = ok (Some DefaultFont).
Proof. reflexivity. Qed.

Example font_on_mac_host : font mac_host = ok (Some (TrueType arial 180)).
Proof. reflexivity. Qed.

(** C6, as stated, fails: on a host whose Helvetica.ttf exists and is
    not a font file, [ImageFont.truetype] raises, no font is resolved and
    the script ends before it draws the text. *)
Lemma font_raises_on_broken_host :
  path_exists broken_host helvetica = true /\
  font broken_host = raise (OSError "cannot open resource") /\
  ~ (exists v, font broken_host = ok v) /\
  (forall (F : FloatOps) (P : Pillow),
     render broken_host = raise (OSError "cannot open resource")).
Proof.
  split; [reflexivity|split; [reflexivity|split]].
  - intros [v Hv]. discriminate.
  - intros F P. reflexivity.
Qed.

(** ** The raster *)

Lemma paint_size (im : Image) (cov : Z -> Z -> bool) (ink : RGBA) :
  im_size (paint im cov ink) = im_size im.
Proof. reflexivity. Qed.

Lemma exec_size {P : Pillow} (im : Image) (c : DrawCall) :
  im_size (exec im c) = im_size im.
Proof.
  destruct c as [xy fill outline width|xy fill width joint|xy s fnt fill];
    cbn [exec]; [|reflexivity|reflexivity].
  unfold draw_ellipse.
  destruct outline as [c|], fill as [d|]; cbn [im_size];
    repeat match goal with |- context [if ?b then _ else _] => destruct b end;
    reflexivity.
Qed.

Lemma fold_exec_size {P : Pillow} (cs : list DrawCall) (im : Image) :
  im_size (fold_left exec cs im) = im_size im.
Proof.
  revert im; induction cs as [|c cs IH]; intros im; [reflexivity|].
  cbn [fold_left]. now rewrite IH, exec_size.
Qed.

(** C8. Whatever font is in use, the composed raster is 1024 x 1024, and
    so is the raster of every run of the script that gets its font. *)
Theorem raster_is_1024_square (F : FloatOps) (P : Pillow) :
  (forall f : option Font, im_size (compose f) = (1024, 1024)) /\
  (forall (fs : FileSystem) (f : option Font),
      font fs = ok f ->
      exists im, render fs = ok im /\ im_size im = (1024, 1024)) /\
  (forall (fs : FileSystem) (im : Image),
      render fs = ok im -> im_size im = (size, size)).
Proof.
  assert (Hc : forall f : option Font, im_size (compose f) = (1024, 1024)).
  { intros f. unfold compose. now rewrite fold_exec_size. }
  split; [exact Hc|split].
  - intros fs f Hf. exists (compose f). split; [|apply Hc].
    unfold render. now rewrite Hf.
  - intros fs im. unfold render.
    destruct (font fs) as [e|f]; cbn [bind]; [discriminate|].
    intros Him. injection Him as <-. apply Hc.
Qed.

(** C7. Two runs on hosts that answer the probes of the candidate paths
    alike, and hold the same font files there, end alike: both raise the
    same exception or both produce the same raster, pixel for pixel. *)
Theorem render_deterministic (F : FloatOps) (P : Pillow) (fs1 fs2 : FileSystem) :
  (forall p, In p font_paths -> path_exists fs1 p = path_exists fs2 p) ->
  (forall p, In p font_paths -> is_font_file fs1 p = is_font_file fs2 p) ->
  font fs1 = font fs2 /\
  render fs1 = render fs2 /\
  (forall im1 im2, render fs1 = ok im1 -> render fs2 = ok im2 ->
     im_size im1 = im_size im2 /\
     forall x y, getpixel im1 x y = getpixel im2 x y).
Proof.
  intros Hex Hfont.
  assert (Hprobe : forall paths, incl paths font_paths -> probe fs1 paths = probe fs2 paths).
  { induction paths as [|q l IH]; intros Hincl; [reflexivity|].
    cbn [probe].
    rewrite (Hex q) by (apply Hincl; now left).
    unfold truetype. rewrite (Hfont q) by (apply Hincl; now left).
    rewrite IH; [reflexivity|]. intros p Hp. apply Hincl. now right. }
  assert (Hf : font fs1 = font fs2).
  { unfold font. now rewrite (Hprobe font_paths (incl_refl _)). }
  assert (Hr : render fs1 = render fs2) by (unfold render; now rewrite Hf).
  split; [exact Hf|split; [exact Hr|]].
  intros im1 im2 H1 H2. rewrite Hr, H2 in H1. injection H1 as <-.
  split; reflexivity.
Qed.

Lemma render_deterministic_mac :
  @font mac_host = @font mac_host' /\
  @render exact_floats ideal_pillow mac_host = @render exact_floats ideal_pillow mac_host' /\
  (forall im1 im2,
     @render exact_floats ideal_pillow mac_host = ok im1 ->
     @render exact_floats ideal_pillow mac_host' = ok im2 ->
     im_size im1 = im_size im2 /\
     forall x y, getpixel im1 x y = getpixel im2 x y).
Proof.
  apply (render_deterministic exact_floats ideal_pillow mac_host mac_host').
  - intros p [<-|[<-|[<-|[]]]]; reflexivity.
  - intros p _. reflexivity.
Defined.

(** ** Pixels *)

Lemma paint_covered (im : Image) (cov : Z -> Z -> bool) (ink : RGBA) (x y : Z) :
  in_image im x y = true -> cov x y = true -> im_px (paint im cov ink) x y = ink.
Proof. intros Hin Hcov. cbn [paint im_px]. now rewrite Hin, Hcov. Qed.

Lemma paint_uncovered (im : Image) (cov : Z -> Z -> bool) (ink : RGBA) (x y : Z) :
  cov x y = false -> im_px (paint im cov ink) x y = im_px im x y.
Proof. intros Hcov. cbn [paint im_px]. now rewrite Hcov, andb_false_r. Qed.

Section Pixels.
Context {F : FloatOps} {P : Pillow}.

Lemma in_image_exec (im : Image) (c : DrawCall) (x y : Z) :
  in_image (exec im c) x y = in_image im x y.
Proof. unfold in_image. now rewrite exec_size. Qed.

Lemma in_image_fold (cs : list DrawCall) (im : Image) (x y : Z) :
  in_image (fold_left exec cs im) x y = in_image im x y.
Proof. unfold in_image. now rewrite fold_exec_size. Qed.

(** A stroked, unfilled ellipse stores its outline colour, alpha
    included, in every pixel of the image its stroke covers. *)
Lemma stroke_overwrites (im : Image) (xy : BBox R) (c : RGBA) (w x y : Z) :
  w <> 0 -> in_image im x y = true -> ellipse_outline_cov xy w x y = true ->
  im_px (exec im (Ellipse xy None (Some c) w)) x y = c.
Proof.
  intros Hw Hin Hcov. cbn [exec]. unfold draw_ellipse.
  apply Z.eqb_neq in Hw. rewrite Hw. cbn [orb].
  now apply paint_covered.
Qed.

(** Text drawn through a full coverage stores the fill colour, alpha
    included. *)
Lemma text_overwrites (Hfull : blend_full P) (im : Image) (xy : R * R) (s : string)
    (fnt : option Font) (c : RGBA) (x y : Z) :
  in_image im x y = true -> text_mask (getfont fnt) s xy x y = 255 ->
  im_px (exec im (Text xy s fnt c)) x y = c.
Proof.
  intros Hin Hm. cbn [exec draw_text paste_mask im_px].
  rewrite Hin, Hm. apply Hfull.
Qed.

Hypothesis Hzero : blend_zero P.

Lemma exec_leaves (im : Image) (c : DrawCall) (x y : Z) :
  leaves c x y -> im_px (exec im c) x y = im_px im x y.
Proof.
  destruct c as [xy fill outline width|xy fill width joint|xy s fnt fill];
    cbn [exec leaves].
  - intros [Hfill Hout]. unfold draw_ellipse.
    assert (H1 : im_px (match fill with
                        | Some d => paint im (ellipse_fill_cov xy) d
                        | None => im
                        end) x y = im_px im x y).
    { destruct fill as [d|]; [|reflexivity].
      destruct Hfill as [Hf|Hf]; [discriminate|]. now apply paint_uncovered. }
    destruct outline as [c|]; [|destruct fill as [d|]; [exact H1|]];
      (match goal with |- context [if ?b then _ else _] => destruct b end;
       [exact H1|rewrite paint_uncovered by exact Hout; exact H1]).
  - intros Hcov. now apply paint_uncovered.
  - intros Hm. cbn [draw_text paste_mask im_px]. rewrite Hm.
    destruct (in_image im x y); [apply Hzero|reflexivity].
Qed.

Lemma fold_leaves (cs : list DrawCall) (im : Image) (x y : Z) :
  Forall (fun c => leaves c x y) cs ->
  im_px (fold_left exec cs im) x y = im_px im x y.
Proof.
  intros Hcs; revert im; induction Hcs as [|c cs Hc _ IH]; intros im; [reflexivity|].
  cbn [fold_left]. now rewrite IH, exec_leaves.
Qed.

End Pixels.

(** ** Where the calls of the script can reach *)

Section Reach.
Context {F : FloatOps} {P : Pillow}.
Hypothesis Hmono : rnd_monotone F.
Hypothesis Hexact : rnd_exact_on_halves F.
Hypothesis Hsin : sin_bounded F.
Hypothesis Hell : ellipse_within_bbox P.
Hypothesis Hline : line_within_hull P.
Hypothesis Htext : text_within_bbox P.

(** A ring does not reach above the top of its box. *)
Lemma ring_leaves (i a x y : Z) :
  0 <= i <= 512 -> (IZR y < IZR (512 - i) - 1)%R -> leaves (ring_call (i, a)) x y.
Proof.
  intros Hi Hy. cbn [ring_call leaves]. split; [now left|].
  destruct (ellipse_outline_cov (ring_bbox i) 10 x y) eqn:E; [|reflexivity].
  rewrite (ring_bbox_exact Hexact) in E by exact Hi.
  apply Hell in E. lra.
Qed.

Lemma wave_points_in_box :
  Forall (fun p => 120 <= fst p <= 904 /\ 392 <= snd p <= 632)%R
         (map (fun p : Z * R => (IZR (fst p), snd p)) pts).
Proof.
  unfold pts. rewrite map_map. cbn [fst snd].
  apply Forall_map.
  eapply Forall_impl; [|apply (range_bounds 120 (size - 120) 4); lia].
  intros x [Hlo Hhi]. cbn [fst snd]. split.
  - apply IZR_le in Hlo. apply IZR_lt in Hhi. change (size - 120) with 904 in Hhi. lra.
  - apply (wave_y_bounds Hmono Hexact Hsin).
Qed.

(** The wave stays below row 376 (and above row 648). *)
Lemma wave_leaves (x y : Z) : (IZR y < 376)%R -> leaves wave_call x y.
Proof.
  intros Hy. cbn [wave_call leaves].
  match goal with |- ?c = false => destruct c eqn:E end; [|reflexivity].
  apply (Hline _ 16 _ 120%R 904%R 392%R 632%R) in E; [|lia|apply wave_points_in_box].
  change (IZR 16) with 16%R in E. lra.
Qed.

(** The text is placed with its box centred on 0.68 of the height: a box
    of height [h] has its position no higher than row 512 - h / 2. *)
Lemma text_pos_y_lower (f : option Font) :
  modest_bbox (font_getbbox (getfont f) text) ->
  (512 - IZR (text_h f) / 2 <= snd (text_pos f))%R.
Proof.
  unfold modest_bbox, text_pos, text_h, bbox, textbbox.
  destruct (font_getbbox (getfont f) text) as [[[b0 b1] b2] b3].
  cbn [fst snd]. intros (Hb1 & Hh & _).
  replace (b3 + 0 - (b1 + 0)) with (b3 - b1) by lia.
  set (h := b3 - b1) in *.
  assert (H2 : 2 ^ 53 = 9007199254740992) by reflexivity.
  rewrite (int_halved_exact Hexact) by lia.
  unfold fsub, fmul, literal.
  rewrite (of_int_exact Hexact) by (vm_compute; discriminate).
  assert (Hc : (1 / 2 <= rnd (68 / 100))%R).
  { replace (1 / 2)%R with (rnd (IZR 1 / 2)) by (rewrite Hexact; [lra|lia]).
    apply Hmono. lra. }
  assert (HA : (512 <= rnd (IZR size * rnd (68 / 100)))%R).
  { rewrite <- (rnd_int Hexact 512) by (vm_compute; discriminate).
    apply Hmono. unfold size. lra. }
  replace (512 - IZR h / 2)%R with (rnd (IZR (1024 - h) / 2)).
  - apply Hmono. rewrite minus_IZR. lra.
  - rewrite Hexact by lia. rewrite minus_IZR. lra.
Qed.

(** So a modest text does not reach above row 261. *)
Lemma text_leaves (f : option Font) (c : RGBA) (x y : Z) :
  modest_bbox (font_getbbox (getfont f) text) ->
  (IZR y < 261)%R -> leaves (Text (text_pos f) text f c) x y.
Proof.
  intros Hm Hy. cbn [leaves].
  pose proof (text_pos_y_lower f Hm) as Hlow.
  destruct (text_pos f) as [px py] eqn:Epos. cbn [snd] in Hlow.
  destruct (Z.eq_dec (text_mask (getfont f) text (px, py) x y) 0) as [E|E]; [exact E|].
  apply Htext in E. revert Hlow.
  unfold text_h, bbox, textbbox. unfold modest_bbox in Hm.
  destruct (font_getbbox (getfont f) text) as [[[b0 b1] b2] b3].
  cbn [fst snd]. destruct Hm as (Hb1 & Hh & _). destruct E as [_ [Ey _]].
  replace (b3 + 0 - (b1 + 0)) with (b3 - b1) by lia.
  intros Hlow.
  assert (IZR (b3 - b1) <= 500)%R by (apply IZR_le; lia).
  assert (0 <= IZR b1)%R by (apply IZR_le; lia).
  lra.
Qed.

(** Every call from the wave on leaves the rows above 261 alone. *)
Lemma after_rings_leaves (f : option Font) (x y : Z) :
  modest_bbox (font_getbbox (getfont f) text) ->
  (IZR y < 261)%R ->
  Forall (fun c => leaves c x y) ([wave_call] ++ glow_calls f ++ [caption_call f]).
Proof.
  intros Hm Hy. apply Forall_app. split.
  - constructor; [apply wave_leaves; lra|constructor].
  - apply Forall_app. split.
    + unfold glow_calls. apply Forall_map, Forall_forall. intros r _.
      now apply text_leaves.
    + constructor; [now apply text_leaves|constructor].
Qed.

End Reach.

(** ** The reference instances meet what is asked of the libraries *)

Lemma Rleb_true (a b : R) : Rleb a b = true <-> (a <= b)%R.
Proof. unfold Rleb. destruct (Rle_dec a b); split; intros; try easy. Qed.

Lemma Rltb_true (a b : R) : Rltb a b = true <-> (a < b)%R.
Proof. unfold Rltb. destruct (Rlt_dec a b); split; intros; try easy. Qed.

Lemma in_box_true (x0 y0 x1 y1 : R) (x y : Z) :
  in_box (x0, y0, x1, y1) x y = true <->
  (x0 <= IZR x <= x1 /\ y0 <= IZR y <= y1)%R.
Proof.
  unfold in_box. rewrite !andb_true_iff, !Rleb_true. tauto.
Qed.

Lemma exact_floats_monotone : rnd_monotone exact_floats.
Proof. intros x y Hxy. exact Hxy. Qed.

Lemma exact_floats_exact : rnd_exact_on_halves exact_floats.
Proof. intros n _. reflexivity. Qed.

Lemma exact_floats_sin : sin_bounded exact_floats.
Proof. intros t. apply SIN_bound. Qed.

Lemma ideal_ellipse_within : ellipse_within_bbox ideal_pillow.
Proof.
  intros x0 y0 x1 y1 w x y H. cbn [ellipse_outline_cov ideal_pillow] in H.
  unfold outline, in_ellipse in H.
  apply andb_true_iff in H as [H _]. apply andb_true_iff in H as [H _].
  apply in_box_true in H. lra.
Qed.

Lemma ideal_ellipse_top : ellipse_covers_top ideal_pillow.
Proof.
  intros cx cy r w [Hw Hr]. cbn [ellipse_outline_cov ideal_pillow].
  assert (Hh : 0 <= w / 2 < w) by (split; [apply Z.div_pos; lia|apply Z.div_lt; lia]).
  set (k := w / 2) in *. clearbody k.
  unfold outline. apply andb_true_iff. split.
  - unfold in_ellipse. apply andb_true_iff. split.
    + apply in_box_true. rewrite !minus_IZR, !plus_IZR, !minus_IZR.
      assert (0 <= IZR k)%R by (apply IZR_le; lia).
      assert (IZR k <= IZR r)%R by (apply IZR_le; lia).
      lra.
    + apply Rleb_true. rewrite !minus_IZR, !plus_IZR, !minus_IZR.
      assert (Hk0 : (0 <= IZR k)%R) by (apply IZR_le; lia).
      assert (Hkr : (IZR k <= IZR r)%R) by (apply IZR_le; lia).
      set (A := IZR r) in *. set (K := IZR k) in *.
      assert (Hd : ((2 * K - 2 * A) * (2 * K - 2 * A) <= 2 * A * (2 * A))%R) by nra.
      assert (Hs : (0 <= 2 * A * (2 * A))%R) by nra.
      match goal with
      | |- (?l <= ?r)%R =>
          replace l with ((2 * K - 2 * A) * (2 * K - 2 * A) * (2 * A * (2 * A)))%R by ring;
          replace r with (2 * A * (2 * A) * (2 * A * (2 * A)))%R by ring
      end.
      now apply Rmult_le_compat_r.
  - apply negb_true_iff. unfold shrink, in_ellipse.
    apply andb_false_iff. left.
    destruct (in_box _ cx (cy - r + k)) eqn:E; [|reflexivity].
    apply in_box_true in E. rewrite !minus_IZR, !plus_IZR, !minus_IZR in E.
    assert (IZR k < IZR w)%R by (apply IZR_lt; lia).
    lra.
Qed.

Lemma near_segment_within (p q : R * R) (w x y : Z) (xlo xhi ylo yhi : R) :
  0 <= w ->
  (xlo <= fst p <= xhi /\ ylo <= snd p <= yhi)%R ->
  (xlo <= fst q <= xhi /\ ylo <= snd q <= yhi)%R ->
  near_segment p q w x y = true ->
  (xlo - IZR w <= IZR x <= xhi + IZR w /\ ylo - IZR w <= IZR y <= yhi + IZR w)%R.
Proof.
  intros Hw Hp Hq H. unfold near_segment in H.
  rewrite Z.max_r in H by exact Hw.
  rewrite !andb_true_iff, !Rleb_true in H.
  assert (0 <= IZR w)%R by (apply IZR_le; lia).
  pose proof (Rmin_l (fst p) (fst q)). pose proof (Rmax_l (fst p) (fst q)).
  pose proof (Rmin_l (snd p) (snd q)). pose proof (Rmax_l (snd p) (snd q)).
  assert (xlo <= Rmin (fst p) (fst q))%R by (apply Rmin_glb; lra).
  assert (Rmax (fst p) (fst q) <= xhi)%R by (apply Rmax_lub; lra).
  assert (ylo <= Rmin (snd p) (snd q))%R by (apply Rmin_glb; lra).
  assert (Rmax (snd p) (snd q) <= yhi)%R by (apply Rmax_lub; lra).
  lra.
Qed.

Lemma ideal_line_within : line_within_hull ideal_pillow.
Proof.
  intros xy w joint xlo xhi ylo yhi x y Hw Hall. cbn [line_cov ideal_pillow].
  induction Hall as [|p l Hp Hl IH]; [discriminate|].
  destruct l as [|q l']; [discriminate|].
  cbn [polyline]. intros H. apply orb_true_iff in H as [H|H].
  - inversion Hl as [|? ? Hq _]; subst.
    now apply (near_segment_within p q w x y xlo xhi ylo yhi).
  - now apply IH.
Qed.

Lemma in_placed_true (xy : R * R) (b0 b1 b2 b3 : Z) (d : R) (x y : Z) :
  in_placed xy (b0, b1, b2, b3) d x y = true <->
  (fst xy + IZR b0 + d <= IZR x < fst xy + IZR b2 - d /\
   snd xy + IZR b1 + d <= IZR y < snd xy + IZR b3 - d)%R.
Proof.
  unfold in_placed. rewrite !andb_true_iff, !Rleb_true, !Rltb_true. tauto.
Qed.

Lemma block_mask_nonzero (f : Font) (s : string) (xy : R * R) (x y : Z) :
  block_mask f s xy x y <> 0 -> in_placed xy (metrics f s) 0 x y = true.
Proof.
  unfold block_mask. destruct (in_placed xy (metrics f s) 0 x y); [reflexivity|].
  intros H. now elim H.
Qed.

Lemma ideal_text_within : text_within_bbox ideal_pillow.
Proof.
  intros f s px py x y H. cbn [text_mask font_getbbox ideal_pillow] in *.
  apply block_mask_nonzero in H.
  destruct (metrics f s) as [[[b0 b1] b2] b3].
  apply in_placed_true in H. cbn [fst snd] in H. lra.
Qed.

Lemma ideal_blend_zero : blend_zero ideal_pillow.
Proof. intros dst ink. reflexivity. Qed.

Lemma ideal_blend_full : blend_full ideal_pillow.
Proof. intros dst ink. reflexivity. Qed.

(** On bytes, the two shortcuts of [blend8] are what [BLEND] computes. *)
Lemma blend_band_ends (a : Z) :
  0 <= a <= 255 -> forall b : Z, blend_band 0 a b = a /\ blend_band 255 b a = a.
Proof.
  intros Ha b. unfold blend_band, div255.
  replace (a * (255 - 0) + b * 0) with (a * 255) by lia.
  replace (b * (255 - 255) + a * 255) with (a * 255) by lia.
  rewrite !Z.shiftr_div_pow2 by lia. change (2 ^ 8) with 256.
  assert (((a * 255 + 128) / 256 + (a * 255 + 128)) / 256 = a).
  { assert (Hq : (a * 255 + 128) / 256 = a - 1 + (384 - a) / 256).
    { replace (a * 255 + 128) with ((a - 1) * 256 + (384 - a)) by lia.
      rewrite Z.div_add_l by lia. reflexivity. }
    assert (Hs : (384 - a) / 256 = if a <=? 128 then 1 else 0).
    { destruct (Z.leb_spec a 128).
      - symmetry. apply Z.div_unique with (r := 128 - a); lia.
      - apply Z.div_small; lia. }
    rewrite Hq, Hs. destruct (Z.leb_spec a 128).
    - symmetry. apply Z.div_unique with (r := 128); lia.
    - symmetry. apply Z.div_unique with (r := 127); lia. }
  split; assumption.
Qed.

Lemma arial_metrics :
  font_getbbox (getfont (Some (TrueType arial 180))) text = (0, 37, 419, 169).
Proof. reflexivity. Qed.

Lemma arial_modest :
  modest_bbox (font_getbbox (getfont (Some (TrueType arial 180))) text).
Proof. rewrite arial_metrics. cbn. lia. Qed.

(** ** The corner pixel *)

Lemma corner_in_image {F : FloatOps} {P : Pillow} (cs : list DrawCall) :
  in_image (fold_left exec cs img) 0 0 = true.
Proof. now rewrite in_image_fold. Qed.

(** C9. No call of the script reaches the corner pixel (0, 0): the
    rings stay in their boxes, the wave in the band around its points,
    and a modest text around its measured box.  So the finished raster
    has there what [Image.new] put: the background (15, 20, 35) with
    alpha 255. *)
Theorem corner_keeps_background (F : FloatOps) (P : Pillow) (f : option Font) :
  rnd_monotone F -> rnd_exact_on_halves F -> sin_bounded F ->
  ellipse_within_bbox P -> line_within_hull P -> text_within_bbox P ->
  blend_zero P ->
  modest_bbox (font_getbbox (getfont f) text) ->
  Forall (fun c => leaves c 0 0) (draw_calls f) /\
  getpixel (compose f) 0 0 = Some (15, 20, 35, 255) /\
  (exists c, getpixel (compose f) 0 0 = Some c /\ rgb_of c = bg /\ alpha_of c <> 0) /\
  (forall fs, font fs = ok f ->
     exists im, render fs = ok im /\ getpixel im 0 0 = Some (15, 20, 35, 255)).
Proof.
  intros Hmono Hexact Hsin Hell Hline Htext Hzero Hm.
  assert (Hall : Forall (fun c => leaves c 0 0) (draw_calls f)).
  { unfold draw_calls. apply Forall_app. split.
    - unfold rings. cbn [map].
      repeat (apply Forall_cons;
              [apply (ring_leaves Hexact Hell); [lia|rewrite minus_IZR; lra]|]).
      apply Forall_nil.
    - apply (after_rings_leaves Hmono Hexact Hsin Hline Htext); [exact Hm|lra]. }
  assert (Hpx : getpixel (compose f) 0 0 = Some (15, 20, 35, 255)).
  { unfold getpixel, compose. rewrite corner_in_image.
    now rewrite (fold_leaves Hzero _ _ 0 0 Hall). }
  split; [exact Hall|split; [exact Hpx|split]].
  - exists (15, 20, 35, 255). split; [exact Hpx|split; [reflexivity|discriminate]].
  - intros fs Hf. exists (compose f). split; [|exact Hpx].
    unfold render. now rewrite Hf.
Qed.

Lemma corner_keeps_background_arial :
  let f := Some (TrueType arial 180) in
  Forall (fun c => leaves c 0 0) (@draw_calls exact_floats ideal_pillow f) /\
  getpixel (@compose exact_floats ideal_pillow f) 0 0 = Some (15, 20, 35, 255) /\
  (exists c, getpixel (@compose exact_floats ideal_pillow f) 0 0 = Some c /\
             rgb_of c = bg /\ alpha_of c <> 0) /\
  (forall fs, font fs = ok f ->
     exists im, @render exact_floats ideal_pillow fs = ok im /\
                getpixel im 0 0 = Some (15, 20, 35, 255)).
Proof.
  exact (corner_keeps_background exact_floats ideal_pillow (Some (TrueType arial 180))
           exact_floats_monotone exact_floats_exact exact_floats_sin
           ideal_ellipse_within ideal_line_within ideal_text_within
           ideal_blend_zero arial_modest).
Defined.

(** ** Alpha is stored, not composited *)

Section Alpha.
Context {F : FloatOps} {P : Pillow}.
Hypothesis Hmono : rnd_monotone F.
Hypothesis Hexact : rnd_exact_on_halves F.
Hypothesis Hsin : sin_bounded F.
Hypothesis Hell : ellipse_within_bbox P.
Hypothesis Htop : ellipse_covers_top P.
Hypothesis Hline : line_within_hull P.
Hypothesis Htext : text_within_bbox P.
Hypothesis Hzero : blend_zero P.
Hypothesis Hfull : blend_full P.
Variable f : option Font.
Hypothesis Hm : modest_bbox (font_getbbox (getfont f) text).

(** The pixel in the middle of a ring's stroke, straight above the
    centre, still has the ring's colour and alpha in the finished raster:
    the rings drawn later are smaller, the wave and the text lie lower. *)
Lemma ring_pixel_kept (before later : list (Z * Z)) (i a : Z) :
  rings = before ++ (i, a) :: later ->
  256 < i <= 512 ->
  Forall (fun ring => 0 <= fst ring <= 512 /\ fst ring + 6 < i) later ->
  getpixel (compose f) 512 (512 - i + 5) = Some (80, 140, 255, a).
Proof.
  intros Hrings Hi Hlater.
  set (y := 512 - i + 5).
  assert (Hy : (IZR y < 261)%R) by (apply IZR_lt; subst y; lia).
  assert (Hin : forall im, im_size im = (1024, 1024) -> in_image im 512 y = true).
  { intros im Him. unfold in_image. rewrite Him. cbn [fst snd].
    rewrite !andb_true_iff, !Z.leb_le, !Z.ltb_lt. subst y. lia. }
  assert (Hrest : Forall (fun c => leaves c 512 y)
                    (map ring_call later ++ [wave_call] ++ glow_calls f ++ [caption_call f])).
  { apply Forall_app. split.
    - apply Forall_map. eapply Forall_impl; [|exact Hlater].
      intros [j b] [Hj Hji]. cbn [fst] in Hj, Hji.
      apply (ring_leaves Hexact Hell); [exact Hj|].
      assert (H1 : (IZR y < IZR (512 - j - 1))%R) by (apply IZR_lt; subst y; lia).
      rewrite (minus_IZR (512 - j) 1) in H1. exact H1.
    - now apply (after_rings_leaves Hmono Hexact Hsin Hline Htext). }
  unfold compose, draw_calls. rewrite Hrings, map_app. cbn [map].
  rewrite <- app_assoc. cbn [app]. rewrite fold_left_app. cbn [fold_left].
  unfold getpixel.
  rewrite Hin by now rewrite fold_exec_size, exec_size, fold_exec_size.
  rewrite (fold_leaves Hzero _ _ 512 y Hrest).
  f_equal. cbn [ring_call].
  apply stroke_overwrites; [discriminate|apply Hin; now rewrite fold_exec_size|].
  rewrite (ring_bbox_exact Hexact) by lia.
  exact (Htop 512 512 i 10 ltac:(lia)).
Qed.

(** A pixel the glyphs cover in full has the colour and alpha of the
    last glow pass when the glow loop ends, and of the caption in the
    finished raster. *)
Lemma glyph_pixel (x y : Z) :
  in_image img x y = true ->
  text_mask (getfont f) text (text_pos f) x y = 255 ->
  getpixel (compose_glow f) x y = Some (120, 200, 255, 18) /\
  getpixel (compose f) x y = Some (235, 245, 255, 255).
Proof.
  intros Hin Hmask. split.
  - unfold compose_glow, glow_calls.
    change (range 8 0 (-1)) with ([8; 7; 6; 5; 4; 3; 2] ++ [1]).
    rewrite map_app, !app_assoc, fold_left_app. cbn [map fold_left].
    unfold getpixel. rewrite in_image_exec, in_image_fold, Hin. f_equal.
    apply (text_overwrites Hfull); [now rewrite in_image_fold|exact Hmask].
  - unfold compose, draw_calls.
    rewrite !app_assoc, fold_left_app. cbn [fold_left].
    unfold getpixel. rewrite in_image_exec, in_image_fold, Hin. f_equal.
    apply (text_overwrites Hfull); [now rewrite in_image_fold|exact Hmask].
Qed.

End Alpha.

(** The caption of the reference run: Arial at 180 measures
    (0, 37, 419, 169), so the text is placed at (302.5, 630.32). *)
Lemma arial_text_pos :
  @text_pos exact_floats ideal_pillow (Some (TrueType arial 180)) =
    (605 / 2, 63032 / 100)%R.
Proof.
  unfold text_pos, text_w, text_h, bbox, textbbox. rewrite arial_metrics.
  cbn [fst snd]. unfold int_truediv, fsub, fmul, of_int, literal.
  cbn [rnd exact_floats].
  change (size - (419 + 0 - (0 + 0))) with 605.
  change (169 + 0 - (37 + 0)) with 132. unfold size.
  f_equal; lra.
Qed.

Lemma arial_block_mask (x y : Z) :
  text_mask (getfont (Some (TrueType arial 180))) text
    (@text_pos exact_floats ideal_pillow (Some (TrueType arial 180))) x y =
  if in_placed (605 / 2, 63032 / 100)%R (0, 37, 419, 169) 0 x y then
    if negb (in_placed (605 / 2, 63032 / 100)%R (0, 37, 419, 169) 1 x y) then 64 else 255
  else 0.
Proof. rewrite arial_text_pos. reflexivity. Qed.

(** A pixel inside the box of the caption, covered in full. *)
Lemma arial_glyph_pixel :
  text_mask (getfont (Some (TrueType arial 180))) text
    (@text_pos exact_floats ideal_pillow (Some (TrueType arial 180))) 512 700 = 255.
Proof.
  rewrite arial_block_mask.
  assert (H0 : in_placed (605 / 2, 63032 / 100)%R (0, 37, 419, 169) 0 512 700 = true)
    by (apply in_placed_true; cbn [fst snd]; lra).
  assert (H1 : in_placed (605 / 2, 63032 / 100)%R (0, 37, 419, 169) 1 512 700 = true)
    by (apply in_placed_true; cbn [fst snd]; lra).
  now rewrite H0, H1.
Qed.

(** A pixel on the lower edge of the box, covered in part. *)
Lemma arial_edge_pixel :
  text_mask (getfont (Some (TrueType arial 180))) text
    (@text_pos exact_floats ideal_pillow (Some (TrueType arial 180))) 512 799 = 64.
Proof.
  rewrite arial_block_mask.
  assert (H0 : in_placed (605 / 2, 63032 / 100)%R (0, 37, 419, 169) 0 512 799 = true)
    by (apply in_placed_true; cbn [fst snd]; lra).
  assert (H1 : in_placed (605 / 2, 63032 / 100)%R (0, 37, 419, 169) 1 512 799 = false).
  { destruct (in_placed _ _ 1 512 799) eqn:E; [|reflexivity].
    apply in_placed_true in E. cbn [fst snd] in E. lra. }
  now rewrite H0, H1.
Qed.

(** ** Where the text ends up *)

(** The script centres the width of the measured box and does not take
    the box's own left edge into account: placed at [text_pos], the box
    has its middle [b0] pixels to the right of the canvas's. *)
Lemma text_centre_formula {F : FloatOps} {P : Pillow} (f : option Font)
    (b0 b1 b2 b3 : Z) :
  rnd_exact_on_halves F ->
  font_getbbox (getfont f) text = (b0, b1, b2, b3) ->
  Z.abs b0 <= 2 ^ 31 -> Z.abs b2 <= 2 ^ 31 ->
  text_centre_x f = (512 + IZR b0)%R.
Proof.
  intros Hexact Hb H0 H2.
  assert (E31 : 2 ^ 31 = 2147483648) by reflexivity.
  assert (E52 : 2 ^ 52 = 4503599627370496) by reflexivity.
  assert (E53 : 2 ^ 53 = 9007199254740992) by reflexivity.
  unfold text_centre_x, textbbox_at, text_pos, text_w, bbox, textbbox.
  rewrite Hb. cbn [fst snd].
  replace (size - (b2 + 0 - (b0 + 0))) with (1024 - b2 + b0) by (unfold size; lia).
  set (n := 1024 - b2 + b0).
  rewrite (int_halved_exact Hexact) by lia.
  rewrite !(of_int_exact Hexact) by lia.
  unfold fadd.
  replace (IZR b0 + IZR n / 2)%R with (IZR (2 * b0 + n) / 2)%R
    by (rewrite plus_IZR, mult_IZR; lra).
  replace (IZR b2 + IZR n / 2)%R with (IZR (2 * b2 + n) / 2)%R
    by (rewrite plus_IZR, mult_IZR; lra).
  rewrite !Hexact by lia.
  subst n. repeat (rewrite plus_IZR || rewrite mult_IZR || rewrite minus_IZR). lra.
Qed.

(** The middle of the placed box is within a pixel of the middle of the
    canvas exactly when the measured box starts within a pixel of the
    pen origin. *)
Lemma text_centre_off_by_left_edge (F : FloatOps) (P : Pillow) (f : option Font)
    (b0 b1 b2 b3 : Z) :
  rnd_exact_on_halves F ->
  font_getbbox (getfont f) text = (b0, b1, b2, b3) ->
  Z.abs b0 <= 2 ^ 31 -> Z.abs b2 <= 2 ^ 31 ->
  text_centre_x f = (IZR size / 2 + IZR b0)%R /\
  ((Rabs (text_centre_x f - IZR size / 2) <= 1)%R <-> Z.abs b0 <= 1).
Proof.
  intros Hexact Hb H0 H2.
  rewrite (text_centre_formula f b0 b1 b2 b3 Hexact Hb H0 H2).
  unfold size. split; [lra|].
  replace (512 + IZR b0 - 1024 / 2)%R with (IZR b0) by lra.
  rewrite <- abs_IZR. split; intros H.
  - now apply le_IZR.
  - now apply IZR_le.
Qed.



(** With the built-in bitmap font, whose boxes start at the origin, the
    text is centred. *)
Example text_centre_default_is_512 :
  @text_centre_x exact_floats ideal_pillow None = 512%R.
Proof.
  rewrite (@text_centre_formula exact_floats ideal_pillow None 0 0 24 11
             exact_floats_exact eq_refl)
    by (vm_compute; discriminate).
  lra.
Qed.

(** * More of the script *)

(** ** The layers *)

Section LayerFacts.
Context {F : FloatOps} {P : Pillow}.
Variable f : option Font.

Lemma in_image_paint (im : Image) (cov : Z -> Z -> bool) (ink : RGBA) (x y : Z) :
  in_image (paint im cov ink) x y = in_image im x y.
Proof. reflexivity. Qed.

Lemma paint_px (im : Image) (cov : Z -> Z -> bool) (ink : RGBA) (x y : Z) :
  in_image im x y = true ->
  im_px (paint im cov ink) x y = if cov x y then ink else im_px im x y.
Proof. intros Hin. cbn [paint im_px]. now rewrite Hin. Qed.

(** After the rings and the wave, a pixel of the image has the colour of
    the topmost of them that covers it. *)
Lemma shapes_pixel (x y : Z) :
  in_image img x y = true ->
  im_px (fold_left exec (map ring_call rings ++ [wave_call]) img) x y = shapes_at x y.
Proof.
  intros Hin. unfold rings, shapes_at, on_wave, on_ring.
  cbn [map app fold_left ring_call wave_call exec].
  unfold draw_ellipse, draw_line. cbn [orb Z.eqb].
  rewrite !paint_px by (rewrite ?in_image_paint; exact Hin).
  reflexivity.
Qed.

Lemma in_image_compose (x y : Z) :
  in_image (compose f) x y = in_image img x y.
Proof. unfold compose. apply in_image_fold. Qed.

Lemma in_image_compose_without_glow (x y : Z) :
  in_image (compose_without_glow f) x y = in_image img x y.
Proof. unfold compose_without_glow. apply in_image_fold. Qed.

Lemma shapes_in_palette (x y : Z) : In (shapes_at x y) palette.
Proof.
  unfold shapes_at, palette.
  destruct (on_wave x y); [cbn; tauto|].
  destruct (on_ring 280 x y); [cbn; tauto|].
  destruct (on_ring 330 x y); [cbn; tauto|].
  destruct (on_ring 380 x y); cbn; tauto.
Qed.

Hypothesis Hzero : blend_zero P.
Hypothesis Hfull : blend_full P.

(** Text calls at [text_pos] leave a pixel their glyphs do not cover. *)
Lemma texts_leave (cs : list DrawCall) (x y : Z) :
  glyph_cov f x y = 0 ->
  Forall (fun c => exists col, c = Text (text_pos f) text f col) cs ->
  Forall (fun c => leaves c x y) cs.
Proof.
  intros Hcov Hcs. eapply Forall_impl; [|exact Hcs].
  intros c [col ->]. exact Hcov.
Qed.

Lemma glow_calls_are_texts :
  Forall (fun c => exists col, c = Text (text_pos f) text f col) (glow_calls f).
Proof.
  unfold glow_calls. apply Forall_map, Forall_forall. intros r _.
  now eexists.
Qed.

(** The finished pixel, and the pixel of the script without its glow
    loop, where the glyphs cover in full or not at all. *)
Lemma finished_pixel (x y : Z) :
  in_image img x y = true ->
  glyph_cov f x y = 0 \/ glyph_cov f x y = 255 ->
  im_px (compose f) x y = layers_at f x y /\
  im_px (compose_without_glow f) x y = layers_at f x y.
Proof.
  intros Hin [Hcov|Hcov]; unfold layers_at; rewrite Hcov; cbn [Z.eqb].
  - assert (Hcap : Forall (fun c => leaves c x y) [caption_call f])
      by (constructor; [exact Hcov|constructor]).
    split.
    + unfold compose, draw_calls.
      rewrite app_assoc, fold_left_app.
      rewrite (fold_leaves Hzero); [now apply shapes_pixel|].
      apply Forall_app. split; [|exact Hcap].
      apply texts_leave; [exact Hcov|apply glow_calls_are_texts].
    + unfold compose_without_glow, draw_calls_without_glow.
      rewrite app_assoc, fold_left_app.
      rewrite (fold_leaves Hzero) by exact Hcap. now apply shapes_pixel.
  - split.
    + unfold compose, draw_calls.
      rewrite !app_assoc, fold_left_app. cbn [fold_left].
      apply (text_overwrites Hfull); [now rewrite in_image_fold|exact Hcov].
    + unfold compose_without_glow, draw_calls_without_glow.
      rewrite !app_assoc, fold_left_app. cbn [fold_left].
      apply (text_overwrites Hfull); [now rewrite in_image_fold|exact Hcov].
Qed.

End LayerFacts.

(** X1. Painter's order.  At a pixel of the image that the glyphs cover
    in full or not at all, the finished raster has the colour of the
    topmost layer covering it: the caption, else the wave, else the
    smallest ring whose stroke passes there, else the background. *)
Theorem script_paints_top_layer (F : FloatOps) (P : Pillow) (f : option Font)
    (x y : Z) :
  blend_zero P -> blend_full P ->
  in_image img x y = true ->
  glyph_cov f x y = 0 \/ glyph_cov f x y = 255 ->
  getpixel (compose f) x y = Some (layers_at f x y).
Proof.
  intros Hzero Hfull Hin Hcov.
  unfold getpixel. rewrite in_image_compose, Hin. f_equal.
  exact (proj1 (finished_pixel f Hzero Hfull x y Hin Hcov)).
Qed.

Lemma script_paints_top_layer_arial :
  getpixel (@compose exact_floats ideal_pillow (Some (TrueType arial 180))) 512 700 =
    Some (@layers_at exact_floats ideal_pillow (Some (TrueType arial 180)) 512 700).
Proof.
  apply (script_paints_top_layer exact_floats ideal_pillow (Some (TrueType arial 180))
           512 700 ideal_blend_zero ideal_blend_full eq_refl).
  right. exact arial_glyph_pixel.
Defined.

Lemma palette_alphas (c : RGBA) :
  In c palette ->
  In (alpha_of c) [255; 40; 60; 80] /\
  (forall r, 1 <= r <= 8 -> c <> (120, 200, 255, 18 * r)).
Proof.
  unfold palette, background, ring_color, wave_color, caption_color.
  intros Hc. cbn [In] in Hc.
  destruct Hc as [<-|[<-|[<-|[<-|[<-|[<-|[]]]]]]]; cbn [alpha_of];
    (split; [cbn [In]; tauto|]);
    intros r Hr Heq; apply (f_equal alpha_of) in Heq; cbn [alpha_of] in Heq; lia.
Qed.

(** X2. Away from the edges of the glyphs, the finished raster has at
    most six colours: the background, the three ring colours, the wave
    colour and the caption colour; its alpha there is 255, 40, 60 or 80.
    No colour of a glow pass (alpha 18 * r, r = 1..8) is among them. *)
Theorem finished_colours_in_palette (F : FloatOps) (P : Pillow) (f : option Font)
    (x y : Z) (c : RGBA) :
  blend_zero P -> blend_full P ->
  glyph_cov f x y = 0 \/ glyph_cov f x y = 255 ->
  getpixel (compose f) x y = Some c ->
  In c palette /\ In (alpha_of c) [255; 40; 60; 80] /\
  (forall r, 1 <= r <= 8 -> c <> (120, 200, 255, 18 * r)).
Proof.
  intros Hzero Hfull Hcov Hpx.
  unfold getpixel in Hpx. rewrite in_image_compose in Hpx.
  destruct (in_image img x y) eqn:Hin; [|discriminate].
  rewrite (proj1 (finished_pixel f Hzero Hfull x y Hin Hcov)) in Hpx.
  assert (Hc : layers_at f x y = c) by congruence. clear Hpx. subst c.
  assert (Hpal : In (layers_at f x y) palette).
  { unfold layers_at. destruct (glyph_cov f x y =? 255).
    - unfold palette. cbn [In]. tauto.
    - apply shapes_in_palette. }
  split; [exact Hpal|]. now apply palette_alphas.
Qed.

Lemma finished_colours_in_palette_arial :
  In (235, 245, 255, 255) palette /\ In (alpha_of (235, 245, 255, 255)) [255; 40; 60; 80] /\
  (forall r, 1 <= r <= 8 -> (235, 245, 255, 255) <> (120, 200, 255, 18 * r)).
Proof.
  apply (finished_colours_in_palette exact_floats ideal_pillow
           (Some (TrueType arial 180)) 512 700 (235, 245, 255, 255)
           ideal_blend_zero ideal_blend_full).
  - right. exact arial_glyph_pixel.
  - exact (proj2 (@glyph_pixel exact_floats ideal_pillow ideal_blend_full
                    (Some (TrueType arial 180)) 512 700 eq_refl arial_glyph_pixel)).
Defined.

(** X3. The glow loop leaves no trace where the glyphs cover a pixel in
    full or not at all: the finished raster has there what the script
    would produce without the loop.  With a font whose coverage is never
    partial (a bitmap font), the whole raster is that of the script
    without its glow loop. *)
Theorem glow_leaves_no_trace (F : FloatOps) (P : Pillow) (f : option Font) :
  blend_zero P -> blend_full P ->
  (forall x y,
      glyph_cov f x y = 0 \/ glyph_cov f x y = 255 ->
      getpixel (compose f) x y = getpixel (compose_without_glow f) x y) /\
  ((forall x y, glyph_cov f x y = 0 \/ glyph_cov f x y = 255) ->
   im_size (compose f) = im_size (compose_without_glow f) /\
   forall x y, getpixel (compose f) x y = getpixel (compose_without_glow f) x y).
Proof.
  intros Hzero Hfull.
  assert (Hpt : forall x y,
             glyph_cov f x y = 0 \/ glyph_cov f x y = 255 ->
             getpixel (compose f) x y = getpixel (compose_without_glow f) x y).
  { intros x y Hcov. unfold getpixel.
    rewrite in_image_compose, in_image_compose_without_glow.
    destruct (in_image img x y) eqn:Hin; [|reflexivity].
    destruct (finished_pixel f Hzero Hfull x y Hin Hcov) as [H1 H2].
    now rewrite H1, H2. }
  split; [exact Hpt|].
  intros Hall. split.
  - unfold compose, compose_without_glow. now rewrite !fold_exec_size.
  - intros x y. apply Hpt, Hall.
Qed.

(** The glyphs of the built-in bitmap font are never partial. *)
Lemma bitmap_mask_two_valued (s : string) (xy : R * R) (x y : Z) :
  block_mask DefaultFont s xy x y = 0 \/ block_mask DefaultFont s xy x y = 255.
Proof.
  unfold block_mask. cbn [antialiased andb].
  destruct (in_placed xy (metrics DefaultFont s) 0 x y); tauto.
Qed.

Lemma glow_leaves_no_trace_arial :
  (forall x y,
      @glyph_cov exact_floats ideal_pillow (Some (TrueType arial 180)) x y = 0 \/
      @glyph_cov exact_floats ideal_pillow (Some (TrueType arial 180)) x y = 255 ->
      getpixel (@compose exact_floats ideal_pillow (Some (TrueType arial 180))) x y =
      getpixel (@compose_without_glow exact_floats ideal_pillow
                  (Some (TrueType arial 180))) x y) /\
  ((forall x y,
      @glyph_cov exact_floats ideal_pillow (Some (TrueType arial 180)) x y = 0 \/
      @glyph_cov exact_floats ideal_pillow (Some (TrueType arial 180)) x y = 255) ->
   im_size (@compose exact_floats ideal_pillow (Some (TrueType arial 180))) =
   im_size (@compose_without_glow exact_floats ideal_pillow (Some (TrueType arial 180))) /\
   forall x y,
     getpixel (@compose exact_floats ideal_pillow (Some (TrueType arial 180))) x y =
     getpixel (@compose_without_glow exact_floats ideal_pillow
                 (Some (TrueType arial 180))) x y).
Proof.
  exact (glow_leaves_no_trace exact_floats ideal_pillow (Some (TrueType arial 180))
           ideal_blend_zero ideal_blend_full).
Defined.

(** On a host without the candidate fonts the text is drawn with the
    bitmap font, and the whole raster is that of the script without the
    glow loop. *)
Example glow_invisible_with_bitmap_font (x y : Z) :
  getpixel (@compose exact_floats ideal_pillow None) x y =
  getpixel (@compose_without_glow exact_floats ideal_pillow None) x y.
Proof.
  unfold getpixel.
  rewrite in_image_compose, in_image_compose_without_glow.
  destruct (in_image img x y) eqn:Hin; [|reflexivity].
  destruct (@finished_pixel exact_floats ideal_pillow None
              ideal_blend_zero ideal_blend_full x y Hin
              (bitmap_mask_two_valued _ _ x y)) as [H1 H2].
  now rewrite H1, H2.
Qed.

(** X4. The top 131 rows of the finished raster are background: no ring
    reaches above the top of its box, the wave stays in the band around
    its points and a modest text in the lower half. *)
Theorem top_rows_keep_background (F : FloatOps) (P : Pillow) (f : option Font)
    (x y : Z) :
  rnd_monotone F -> rnd_exact_on_halves F -> sin_bounded F ->
  ellipse_within_bbox P -> line_within_hull P -> text_within_bbox P ->
  blend_zero P ->
  modest_bbox (font_getbbox (getfont f) text) ->
  in_image img x y = true -> y < 131 ->
  getpixel (compose f) x y = Some background.
Proof.
  intros Hmono Hexact Hsin Hell Hline Htext Hzero Hm Hin Hy.
  assert (HyR : (IZR y < 131)%R) by (apply (IZR_lt y 131); exact Hy).
  assert (Hall : Forall (fun c => leaves c x y) (draw_calls f)).
  { unfold draw_calls. apply Forall_app. split.
    - unfold rings. cbn [map].
      repeat (apply Forall_cons;
              [apply (ring_leaves Hexact Hell); [lia|rewrite minus_IZR; lra]|]).
      apply Forall_nil.
    - apply (after_rings_leaves Hmono Hexact Hsin Hline Htext); [exact Hm|lra]. }
  unfold getpixel. rewrite in_image_compose, Hin. f_equal.
  unfold compose. now rewrite (fold_leaves Hzero _ _ x y Hall).
Qed.

Lemma top_rows_keep_background_arial :
  getpixel (@compose exact_floats ideal_pillow (Some (TrueType arial 180))) 700 100 =
    Some background.
Proof.
  apply (top_rows_keep_background exact_floats ideal_pillow (Some (TrueType arial 180))
           700 100
           exact_floats_monotone exact_floats_exact exact_floats_sin
           ideal_ellipse_within ideal_line_within ideal_text_within
           ideal_blend_zero arial_modest eq_refl).
  reflexivity.
Defined.

(** ** The wave and the rings *)

(** X5. The wave is wider than the rings and passes through them all.
    Its first and last samples (x = 120 and x = 900) are among those
    farther than 380 pixels, the radius of the outer ring, from the
    centre of the canvas, whatever their y; every sample within 240
    columns of the centre column (x = 512 is one) is closer to the centre
    than 270 pixels, the inner edge of the smallest ring's stroke. *)
Theorem wave_crosses_the_rings (F : FloatOps) :
  rnd_monotone F -> rnd_exact_on_halves F -> sin_bounded F ->
  Forall (fun p => fst p <= 128 \/ 896 <= fst p -> (380 * 380 < centre_dist2 p)%R) pts /\
  Forall (fun p => 272 <= fst p <= 752 -> (centre_dist2 p < 270 * 270)%R) pts /\
  In 120 (map fst pts) /\ In 900 (map fst pts) /\ In 512 (map fst pts).
Proof.
  intros Hmono Hexact Hsin.
  split; [|split; [|split; [|split]]].
  - apply Forall_forall. intros [x y] _ Hx. unfold centre_dist2. cbn [fst snd] in *.
    assert (Hd : (384 <= IZR x - 512 \/ IZR x - 512 <= -384)%R).
    { destruct Hx as [Hx|Hx]; apply IZR_le in Hx; [right|left]; lra. }
    pose proof (Rle_0_sqr (y - 512)) as Hsq. unfold Rsqr in Hsq.
    assert (Hx2 : (384 * 384 <= (IZR x - 512) * (IZR x - 512))%R).
    { assert (Hfar : forall u : R, (384 <= u \/ u <= -384)%R -> (384 * 384 <= u * u)%R)
        by (intros u [Hu|Hu]; nra).
      apply Hfar, Hd. }
    lra.
  - unfold pts. apply Forall_map, Forall_forall. intros x _ Hx.
    unfold centre_dist2. cbn [fst snd] in *.
    pose proof (wave_y_bounds Hmono Hexact Hsin x) as Hy.
    destruct Hx as [Hlo Hhi]. apply IZR_le in Hlo, Hhi.
    assert (Hsq : forall u b : R, (- b <= u <= b)%R -> (u * u <= b * b)%R)
      by (intros u b Hu; nra).
    assert (Hdx : ((IZR x - 512) * (IZR x - 512) <= 240 * 240)%R) by (apply Hsq; lra).
    assert (Hdy : ((wave_y x - 512) * (wave_y x - 512) <= 120 * 120)%R)
      by (apply Hsq; lra).
    lra.
  - rewrite pts_xs. apply (nth_error_In _ 0). reflexivity.
  - rewrite pts_xs. apply (nth_error_In _ 195). reflexivity.
  - rewrite pts_xs. apply (nth_error_In _ 98). reflexivity.
Qed.

Lemma wave_crosses_the_rings_exact :
  Forall (fun p => fst p <= 128 \/ 896 <= fst p -> (380 * 380 < centre_dist2 p)%R)
         (@pts exact_floats) /\
  Forall (fun p => 272 <= fst p <= 752 -> (centre_dist2 p < 270 * 270)%R)
         (@pts exact_floats) /\
  In 120 (map fst (@pts exact_floats)) /\ In 900 (map fst (@pts exact_floats)) /\
  In 512 (map fst (@pts exact_floats)).
Proof.
  exact (wave_crosses_the_rings exact_floats
           exact_floats_monotone exact_floats_exact exact_floats_sin).
Defined.

(** ** The alpha band under the text *)

Lemma range_step1_in (start stop v : Z) :
  start <= v < stop -> In v (range start stop 1).
Proof.
  intros Hv. unfold range, range_len.
  change (0 <? 1) with true. cbv iota.
  destruct (Z.ltb_spec start stop) as [_|Hge]; [|lia].
  rewrite Z.div_1_r, range_from_seq.
  apply in_map_iff. exists (Z.to_nat (v - start)). split; [lia|].
  apply in_seq. lia.
Qed.

Lemma blend_band_range (m a b : Z) :
  is_byte m -> is_byte a -> is_byte b -> is_byte (blend_band m a b).
Proof.
  unfold is_byte, blend_band, div255. intros Hm Ha Hb.
  rewrite !Z.shiftr_div_pow2 by lia. change (2 ^ 8) with 256.
  set (v := a * (255 - m) + b * m).
  assert (Hv : 0 <= v <= 65025) by (subst v; nia).
  clearbody v.
  assert (Hq : 0 <= (v + 128) / 256 < 255).
  { split; [apply Z.div_pos; lia|].
    apply Z.div_lt_upper_bound; lia. }
  split; [apply Z.div_pos; lia|].
  assert ((((v + 128) / 256 + (v + 128)) / 256) < 256)
    by (apply Z.div_lt_upper_bound; lia).
  lia.
Qed.

Lemma ideal_blend_alpha : blend_alpha_is_BLEND ideal_pillow.
Proof.
  intros m [[[r1 g1] b1] a1] [[[r2 g2] b2] a2] Hm Ha1 Ha2.
  cbn [alpha_of] in *. cbn [blend ideal_pillow]. unfold blend8, is_byte in *.
  destruct (Z.eqb_spec m 0) as [->|H0].
  - cbn [alpha_of]. symmetry. apply (blend_band_ends a1 Ha1 a2).
  - destruct (Z.eqb_spec m 255) as [->|H255].
    + cbn [alpha_of]. symmetry. apply (blend_band_ends a2 Ha2 a1).
    + cbn [clip8 blend_bands alpha_of].
      now rewrite !Z.max_r, !Z.min_r by lia.
Qed.

(** A pixel of opaque alpha and partial coverage is not opaque after the
    nine text calls, and has alpha at most 144 for the coverages from 34
    to 125 (checked coverage by coverage). *)
Lemma alpha_after_text_table (m : Z) :
  1 <= m <= 254 ->
  alpha_after_text m 255 < 255 /\
  (34 <= m <= 125 -> alpha_after_text m 255 <= 144).
Proof.
  intros Hm.
  assert (Hall : forallb (fun k =>
            (alpha_after_text k 255 <? 255) &&
            (negb ((34 <=? k) && (k <=? 125)) || (alpha_after_text k 255 <=? 144)))
          (range 1 255 1) = true) by (vm_compute; reflexivity).
  rewrite forallb_forall in Hall.
  specialize (Hall m (range_step1_in 1 255 m ltac:(lia))).
  apply andb_true_iff in Hall as [Hlt Hle]. apply Z.ltb_lt in Hlt.
  split; [exact Hlt|]. intros Hr.
  apply orb_true_iff in Hle as [Hle|Hle].
  - apply negb_true_iff, andb_false_iff in Hle. rewrite Z.leb_gt, Z.leb_gt in Hle. lia.
  - now apply Z.leb_le.
Qed.

Lemma text_calls_are_inks {F : FloatOps} {P : Pillow} (f : option Font) :
  glow_calls f ++ [caption_call f] =
  map (fun ink => Text (text_pos f) text f ink) text_inks.
Proof.
  unfold glow_calls, caption_call, text_inks, glow_call.
  now rewrite map_app, map_map.
Qed.

Lemma text_inks_bytes : Forall (fun ink => is_byte (alpha_of ink)) text_inks.
Proof.
  unfold text_inks. change (range 8 0 (-1)) with [8; 7; 6; 5; 4; 3; 2; 1].
  cbn [map app alpha_of]. unfold is_byte.
  repeat (apply Forall_cons; [cbn [alpha_of]; lia|]). apply Forall_nil.
Qed.

Section TextAlpha.
Context {F : FloatOps} {P : Pillow}.
Hypothesis Hband : blend_alpha_is_BLEND P.
Variable f : option Font.

(** Text calls through the same glyphs blend the alpha of a pixel once
    per ink, with the coverage the glyphs give it. *)
Lemma text_calls_alpha (inks : list RGBA) (im : Image) (x y m : Z) :
  in_image im x y = true ->
  glyph_cov f x y = m -> is_byte m ->
  Forall (fun ink => is_byte (alpha_of ink)) inks ->
  is_byte (alpha_of (im_px im x y)) ->
  alpha_of (im_px (fold_left exec (map (fun ink => Text (text_pos f) text f ink) inks) im)
              x y) =
  blend_alphas m inks (alpha_of (im_px im x y)).
Proof.
  intros Hin Hcov Hm Hinks. revert im Hin.
  induction Hinks as [|ink inks Hink _ IH]; intros im Hin Ha; [reflexivity|].
  cbn [map fold_left]. unfold blend_alphas. cbn [fold_left].
  assert (Hstep : alpha_of (im_px (exec im (Text (text_pos f) text f ink)) x y) =
                  blend_band m (alpha_of (im_px im x y)) (alpha_of ink)).
  { cbn [exec draw_text paste_mask im_px]. rewrite Hin.
    unfold glyph_cov in Hcov. rewrite Hcov. now apply Hband. }
  rewrite IH.
  - unfold blend_alphas. now rewrite Hstep.
  - now rewrite in_image_exec.
  - rewrite Hstep. now apply blend_band_range.
Qed.

(** The finished alpha of a pixel over an opaque part of the picture. *)
Lemma finished_alpha (x y m : Z) :
  in_image img x y = true ->
  glyph_cov f x y = m -> is_byte m ->
  alpha_of (shapes_at x y) = 255 ->
  alpha_of (im_px (compose f) x y) = alpha_after_text m 255.
Proof.
  intros Hin Hcov Hm Hunder.
  unfold compose, draw_calls.
  replace (map ring_call rings ++ [wave_call] ++ glow_calls f ++ [caption_call f])
    with ((map ring_call rings ++ [wave_call]) ++ (glow_calls f ++ [caption_call f]))
    by now rewrite <- app_assoc.
  rewrite fold_left_app, text_calls_are_inks.
  rewrite (text_calls_alpha text_inks _ x y m).
  - rewrite (shapes_pixel x y Hin), Hunder. unfold alpha_after_text. reflexivity.
  - now rewrite in_image_fold.
  - exact Hcov.
  - exact Hm.
  - exact text_inks_bytes.
  - rewrite (shapes_pixel x y Hin), Hunder. unfold is_byte. lia.
Qed.

End TextAlpha.



(** In the reference run the pixel (512, 799), on the lower edge of the
    caption, lies below the wave, outside the stroke of every ring and on
    the background. *)
Lemma arial_under_edge :
  @shapes_at exact_floats ideal_pillow 512 799 = background.
Proof.
  unfold shapes_at.
  assert (Hw : @on_wave exact_floats ideal_pillow 512 799 = false).
  { unfold on_wave. match goal with |- ?c = false => destruct c eqn:E end; [|reflexivity].
    apply (ideal_line_within _ 16 _ 120%R 904%R 392%R 632%R) in E;
      [|lia|apply (wave_points_in_box exact_floats_monotone exact_floats_exact
                     exact_floats_sin)].
    change (IZR 16) with 16%R in E. lra. }
  assert (H280 : @on_ring exact_floats ideal_pillow 280 512 799 = false).
  { unfold on_ring. rewrite (ring_bbox_exact exact_floats_exact) by lia.
    cbn [ellipse_outline_cov ideal_pillow]. unfold outline, in_ellipse.
    apply andb_false_iff. left. apply andb_false_iff. left.
    destruct (in_box _ 512 799) eqn:E; [|reflexivity].
    apply in_box_true in E. change (512 + 280) with 792 in E. lra. }
  assert (Hin : forall i : Z,
             300 <= i <= 400 ->
             @on_ring exact_floats ideal_pillow i 512 799 = false).
  { intros i Hi. unfold on_ring. rewrite (ring_bbox_exact exact_floats_exact) by lia.
    cbn [ellipse_outline_cov ideal_pillow]. unfold outline.
    apply andb_false_iff. right. apply negb_false_iff.
    unfold shrink, in_ellipse. apply andb_true_iff.
    assert (Hlo : (300 <= IZR i)%R) by (apply (IZR_le 300 i); lia).
    assert (Hhi : (IZR i <= 400)%R) by (apply (IZR_le i 400); lia).
    rewrite minus_IZR, plus_IZR. change (IZR 10) with 10%R. split.
    - apply in_box_true. lra.
    - apply Rleb_true.
      set (A := IZR i) in *. clearbody A.
      replace (2 * IZR 512 - (IZR 512 - A + 10) - (IZR 512 + A - 10))%R with 0%R by lra.
      replace (2 * IZR 799 - (IZR 512 - A + 10) - (IZR 512 + A - 10))%R with 574%R by lra.
      replace (IZR 512 + A - 10 - (IZR 512 - A + 10))%R with (2 * A - 20)%R by lra.
      assert (Hs : (574 * 574 <= (2 * A - 20) * (2 * A - 20))%R) by nra.
      assert (Hp : (0 <= (2 * A - 20) * (2 * A - 20))%R) by nra.
      nra. }
  now rewrite Hw, H280, (Hin 330), (Hin 380) by lia.
Qed.

(** There the glow shows: the finished alpha is 121, from the coverage
    64 of the edge. *)
Example arial_edge_pixel_alpha :
  exists c,
    getpixel (@compose exact_floats ideal_pillow (Some (TrueType arial 180))) 512 799 =
      Some c /\
    alpha_of c = 121.
Proof.
  exists (im_px (@compose exact_floats ideal_pillow (Some (TrueType arial 180))) 512 799).
  split.
  - unfold getpixel. now rewrite in_image_compose.
  - rewrite (@finished_alpha exact_floats ideal_pillow ideal_blend_alpha
               (Some (TrueType arial 180)) 512 799 64 eq_refl arial_edge_pixel).
    + reflexivity.
    + unfold is_byte. lia.
    + now rewrite arial_under_edge.
Qed.
